(** * hotel-policy-tool: the [/process] request handler of policy_server.py

    A shallow embedding of the Flask view function [process] and of the
    Python primitives it is built from ([str.strip], [str.startswith],
    [str.index], slicing, truthiness, [dict.get], [json.loads]), followed by
    the properties of the handler.

    Python values are modelled as the objects [json.loads] produces; a [str]
    is a list of Unicode code points; exceptions are explicit results.  The
    external API is a function from the arguments of a call to its outcome,
    and the handler returns, with its response, the calls it made.

    The definitions come first: the primitives, the decoder, the handler,
    then the notions the statements use.  The facts follow: strings, the
    decoder, the handler, fence-stripping. *)

From Stdlib Require Import String Ascii.
From Stdlib Require DecimalString.
From Stdlib Require Import List ZArith NArith Bool Lia.
From Stdlib Require Import Floats.SpecFloat.
Import ListNotations.

Set Warnings "-register-all".

Local Open Scope string_scope.
Local Open Scope N_scope.
Local Open Scope list_scope.

(* ===================================================================== *)
(** * Python strings *)
(* ===================================================================== *)

Module PyStr.

(** A character is a Unicode code point, a [str] a sequence of them. *)
Definition char := N.
Definition str := list char.

(** ASCII literals of the source, written as Rocq strings. *)
Definition lit (s : string) : str := map N_of_ascii (list_ascii_of_string s).

Definition QUOTE : char := 34.       (* the double quote *)
Definition BACKSLASH : char := 92.
Definition BACKTICK : char := 96.
Definition NEWLINE : char := 10.
Definition EM_DASH : char := 8212.   (* U+2014 *)

Definition str_eqb (a b : str) : bool :=
  if list_eq_dec N.eq_dec a b then true else false.

(** [str.isspace] on one character: CPython's [Py_UNICODE_ISSPACE]. *)
Definition isspace (c : char) : bool :=
  ((9 <=? c) && (c <=? 13)) || ((28 <=? c) && (c <=? 32))
  || (c =? 133) || (c =? 160) || (c =? 5760)
  || ((8192 <=? c) && (c <=? 8202))
  || (c =? 8232) || (c =? 8233) || (c =? 8239) || (c =? 8287) || (c =? 12288).

(** [s.lstrip()], [s.rstrip()] and [s.strip()] with no argument. *)
Fixpoint lstrip (s : str) : str :=
  match s with
  | c :: r => if isspace c then lstrip r else s
  | [] => []
  end.

Definition rstrip (s : str) : str := rev (lstrip (rev s)).

Definition strip (s : str) : str := rstrip (lstrip s).

(** [s.startswith(p)] *)
Fixpoint startswith (s p : str) {struct p} : bool :=
  match p, s with
  | [], _ => true
  | a :: p', b :: s' => (a =? b) && startswith s' p'
  | _ :: _, [] => false
  end.

(** [s.endswith(p)] *)
Definition endswith (s p : str) : bool := startswith (rev s) (rev p).

(** [s.index(c)] for a one-character needle: the position of its first
    occurrence, [None] where Python raises [ValueError]. *)
Fixpoint index (s : str) (c : char) : option nat :=
  match s with
  | [] => None
  | a :: r => if a =? c then Some O
              else match index r c with
                   | Some i => Some (S i)
                   | None => None
                   end
  end.

(** The slices [s[i:]], [s[:n]] for [n >= 0], and [s[:-k]]. *)
Definition slice_from (i : nat) (s : str) : str := skipn i s.
Definition slice_to (n : nat) (s : str) : str := firstn n s.
Definition slice_drop_last (k : nat) (s : str) : str :=
  firstn (length s - k) s.

End PyStr.
Export PyStr.

(* ===================================================================== *)
(** * Python values and exceptions *)
(* ===================================================================== *)

(** The objects [json.loads] builds (and Flask's [get_json] hands to the
    view): [None], [bool], [int], [float], [str], [list], and a [dict] with
    string keys, kept in insertion order with one entry per key. *)
Inductive pyval :=
| PNone
| PBool (b : bool)
| PInt (z : Z)
| PFloat (f : spec_float)
| PStr (s : str)
| PList (items : list pyval)
| PDict (entries : list (str * pyval)).

(** [type(v).__name__] *)
Definition type_name (v : pyval) : str :=
  match v with
  | PNone => lit "NoneType"
  | PBool _ => lit "bool"
  | PInt _ => lit "int"
  | PFloat _ => lit "float"
  | PStr _ => lit "str"
  | PList _ => lit "list"
  | PDict _ => lit "dict"
  end.

(** Truth value testing ([bool(v)]). *)
Definition truthy (v : pyval) : bool :=
  match v with
  | PNone => false
  | PBool b => b
  | PInt z => negb (z =? 0)%Z
  | PFloat (S754_zero _) => false
  | PFloat _ => true
  | PStr s => match s with [] => false | _ => true end
  | PList l => match l with [] => false | _ => true end
  | PDict d => match d with [] => false | _ => true end
  end.

(** [a or b] *)
Definition py_or (a b : pyval) : pyval := if truthy a then a else b.

(** Dictionary lookup and [d[k] = v]. *)
Fixpoint dict_lookup (d : list (str * pyval)) (k : str) : option pyval :=
  match d with
  | [] => None
  | (k', v) :: r => if str_eqb k' k then Some v else dict_lookup r k
  end.

Fixpoint dict_set (d : list (str * pyval)) (k : str) (v : pyval)
  : list (str * pyval) :=
  match d with
  | [] => [(k, v)]
  | (k', v') :: r =>
      if str_eqb k' k then (k', v) :: r else (k', v') :: dict_set r k v
  end.

(** The exception classes the handler tells apart, and the others it can
    meet.  [JSONDecodeError] is a subclass of [ValueError] that the handler
    catches on its own, so it is a class of its own here. *)
Inductive exn_class :=
| APIError            (* anthropic.APIError and its subclasses *)
| JSONDecodeError     (* json.JSONDecodeError *)
| AttributeError
| TypeError
| ValueError
| IndexError
| OtherException.     (* any other subclass of Exception *)

(** An exception: its class and its string form [str(e)]. *)
Record exn := mk_exn { exn_cls : exn_class; exn_str : str }.

Inductive result (A : Type) :=
| Ok (a : A)
| Raise (e : exn).
Arguments Ok {A} a.
Arguments Raise {A} e.

Definition bind {A B} (m : result A) (k : A -> result B) : result B :=
  match m with
  | Ok a => k a
  | Raise e => Raise e
  end.

Notation "'let*' x ':=' m 'in' k" := (bind m (fun x => k))
  (at level 10, x pattern, m at level 100, k at level 200).

(** ['T' object has no attribute 'a'] *)
Definition no_attribute (tname : str) (attr : string) : exn :=
  mk_exn AttributeError
    (lit "'" ++ tname ++ lit "' object has no attribute '" ++ lit attr ++ lit "'").

(** [v.get(k)] and [v.get(k, default)]: only a [dict] has the method. *)
Definition py_get (v : pyval) (k : string) (default : pyval) : result pyval :=
  match v with
  | PDict d => Ok (match dict_lookup d (lit k) with
                   | Some x => x
                   | None => default
                   end)
  | _ => Raise (no_attribute (type_name v) "get")
  end.

(** [v.strip()]: only a [str] has the method. *)
Definition py_strip (v : pyval) : result str :=
  match v with
  | PStr s => Ok (strip s)
  | _ => Raise (no_attribute (type_name v) "strip")
  end.

(** [len(v)] *)
Definition py_len (v : pyval) : result nat :=
  match v with
  | PStr s => Ok (length s)
  | PList l => Ok (length l)
  | PDict d => Ok (length d)
  | _ => Raise (mk_exn TypeError
                  (lit "object of type '" ++ type_name v ++ lit "' has no len()"))
  end.

(** The values [for p in v] binds [p] to.  [len(v)] is evaluated before the
    loop, so only sized values reach it; iterating a [str] yields its
    characters and iterating a [dict] its keys. *)
Definition py_iter (v : pyval) : list pyval :=
  match v with
  | PList l => l
  | PStr s => map (fun c => PStr [c]) s
  | PDict d => map (fun kv => PStr (fst kv)) d
  | _ => []
  end.

(** [v[:n]]: a [str] and a [list] can be sliced; a [dict] rejects the slice
    as a key ([TypeError: unhashable type: 'slice'] up to CPython 3.11,
    [KeyError] from 3.12 on); the other values are not subscriptable. *)
Definition py_slice_to (v : pyval) (n : nat) : result pyval :=
  match v with
  | PStr s => Ok (PStr (slice_to n s))
  | PList l => Ok (PList (firstn n l))
  | PDict _ => Raise (mk_exn TypeError (lit "unhashable type: 'slice'"))
  | _ => Raise (mk_exn TypeError
                  (lit "'" ++ type_name v ++ lit "' object is not subscriptable"))
  end.

(* ===================================================================== *)
(** * [json.loads] *)
(* ===================================================================== *)

(** The decoder of the standard library, as CPython's [json.decoder] and
    its scanner implement it: the JSON grammar extended with [NaN],
    [Infinity] and [-Infinity], the whitespace [ \t\n\r], strict strings.
    The functions work on the text that remains to be read; a failure
    records how much text remained, from which the character position of
    [JSONDecodeError] follows; the messages are those of CPython up to
    3.12.  Limits of the interpreter (recursion depth, the digit limit of
    [int], memory) are outside the model. *)
Module Json.

Definition is_ws (c : char) : bool :=
  (c =? 32) || (c =? 9) || (c =? 10) || (c =? 13).

Definition is_digit (c : char) : bool := (48 <=? c) && (c <=? 57).

Fixpoint skip_ws (s : str) : str :=
  match s with
  | c :: r => if is_ws c then skip_ws r else s
  | [] => []
  end.

(** The messages of [JSONDecodeError]. *)
Inductive errmsg :=
| ExpectingValue
| ExtraData
| UnterminatedString
| InvalidControlCharacter
| InvalidEscape
| InvalidUnicodeEscape
| ExpectingPropertyName
| ExpectingColon
| ExpectingComma
| UnexpectedBOM.

Definition errmsg_text (m : errmsg) : str :=
  match m with
  | ExpectingValue => lit "Expecting value"
  | ExtraData => lit "Extra data"
  | UnterminatedString => lit "Unterminated string starting at"
  | InvalidControlCharacter => lit "Invalid control character at"
  | InvalidEscape => lit "Invalid \escape"
  | InvalidUnicodeEscape => lit "Invalid \uXXXX escape"
  | ExpectingPropertyName =>
      lit "Expecting property name enclosed in double quotes"
  | ExpectingColon => lit "Expecting ':' delimiter"
  | ExpectingComma => lit "Expecting ',' delimiter"
  | UnexpectedBOM => lit "Unexpected UTF-8 BOM (decode using utf-8-sig)"
  end.

(** A scan either yields a value and the text after it, or fails with a
    message at the place where [remaining] characters were left. *)
Inductive scan (A : Type) :=
| Scanned (a : A) (rest : str)
| Failed (m : errmsg) (remaining : nat).
Arguments Scanned {A} a rest.
Arguments Failed {A} m remaining.

(** ** Strings *)

Definition hex_digit (c : char) : option N :=
  if (48 <=? c) && (c <=? 57) then Some (c - 48)
  else if (97 <=? c) && (c <=? 102) then Some (c - 87)
  else if (65 <=? c) && (c <=? 70) then Some (c - 55)
  else None.

Definition hex4 (a b c d : char) : option N :=
  match hex_digit a, hex_digit b, hex_digit c, hex_digit d with
  | Some x, Some y, Some z, Some w => Some (((x * 16 + y) * 16 + z) * 16 + w)
  | _, _, _, _ => None
  end.

(** The character a one-letter escape stands for. *)
Definition unescape (c : char) : option char :=
  if c =? QUOTE then Some QUOTE
  else if c =? BACKSLASH then Some BACKSLASH
  else if c =? 47 then Some 47          (* /  *)
  else if c =? 98 then Some 8           (* \b *)
  else if c =? 102 then Some 12         (* \f *)
  else if c =? 110 then Some 10         (* \n *)
  else if c =? 114 then Some 13         (* \r *)
  else if c =? 116 then Some 9          (* \t *)
  else None.

Definition is_high_surrogate (c : N) : bool := (55296 <=? c) && (c <=? 56319).
Definition is_low_surrogate (c : N) : bool := (56320 <=? c) && (c <=? 57343).
Definition join_surrogates (hi lo : N) : N :=
  65536 + (N.lor (N.shiftl (hi - 55296) 10) (lo - 56320)).

(** [scanstring]: [s] is the text after the opening quote, [begin] the text
    remaining at that quote, [acc] the characters decoded so far. *)
Fixpoint scanstring (begin : nat) (acc : str) (s : str) : scan str :=
  match s with
  | [] => Failed UnterminatedString begin
  | c :: r =>
      if c =? QUOTE then Scanned acc r
      else if c =? BACKSLASH then
        match r with
        | [] => Failed UnterminatedString begin
        | e :: r1 =>
            if e =? 117 then                       (* \u *)
              match r1 with
              | h1 :: h2 :: h3 :: h4 :: r2 =>
                  match hex4 h1 h2 h3 h4 with
                  | None => Failed InvalidUnicodeEscape (length r)
                  | Some u =>
                      if is_high_surrogate u then
                        match r2 with
                        | b :: u' :: g1 :: g2 :: g3 :: g4 :: r3 =>
                            if (b =? BACKSLASH) && (u' =? 117) then
                              match hex4 g1 g2 g3 g4 with
                              | Some c2 =>
                                  if is_low_surrogate c2
                                  then scanstring begin
                                         (acc ++ [join_surrogates u c2]) r3
                                  else scanstring begin (acc ++ [u]) r2
                              | None =>
                                  Failed InvalidUnicodeEscape (length r2 - 1)
                              end
                            else scanstring begin (acc ++ [u]) r2
                        | _ => scanstring begin (acc ++ [u]) r2
                        end
                      else scanstring begin (acc ++ [u]) r2
                  end
              | _ => Failed InvalidUnicodeEscape (length r)
              end
            else
              match unescape e with
              | Some x => scanstring begin (acc ++ [x]) r1
              | None => Failed InvalidEscape (length s)
              end
        end
      else if c <=? 31 then Failed InvalidControlCharacter (length s)
      else scanstring begin (acc ++ [c]) r
  end.

(** ** Numbers *)

Fixpoint span_digits (s : str) : str * str :=
  match s with
  | c :: r => if is_digit c
              then let '(ds, t) := span_digits r in (c :: ds, t)
              else ([], s)
  | [] => ([], [])
  end.

Definition digits_value (ds : str) : N :=
  fold_left (fun a c => a * 10 + (c - 48)) ds 0.

(** The binary64 nearest to [(-1)^neg * m * 10^e10], ties to even: what
    [float(...)] returns for a decimal literal. *)
Definition float_of_decimal (neg : bool) (m : N) (e10 : Z) : spec_float :=
  match m with
  | N0 => S754_zero neg
  | Npos p =>
      match e10 with
      | Zneg k => SFdiv 53 1024 (S754_finite neg p 0)
                    (S754_finite false (Pos.pow 10 k) 0)
      | _ => binary_round 53 1024 neg (p * Z.to_pos (10 ^ e10))%positive 0
      end
  end.

(** The sign of a number or of an exponent. *)
Definition take_minus (s : str) : bool * str :=
  match s with
  | c :: r => if c =? 45 then (true, r) else (false, s)
  | [] => (false, s)
  end.

Definition take_sign (s : str) : bool * str :=
  match s with
  | c :: r => if c =? 45 then (true, r)
              else if c =? 43 then (false, r) else (false, s)
  | [] => (false, s)
  end.

(** The integer digits: one digit [0], or a digit [1-9] and all the digits
    after it. *)
Definition int_digits (s : str) : option (str * str) :=
  match s with
  | c :: r =>
      if (49 <=? c) && (c <=? 57)
      then let '(ds, t) := span_digits r in Some (c :: ds, t)
      else if c =? 48 then Some ([c], r) else None
  | [] => None
  end.

(** A [.] followed by at least one digit. *)
Definition frac_digits (s : str) : str * str :=
  match s with
  | dot :: d :: r =>
      if (dot =? 46) && is_digit d
      then let '(ds, t) := span_digits r in (d :: ds, t)
      else ([], s)
  | _ => ([], s)
  end.

(** An [e] or [E], an optional sign and at least one digit; without a
    digit the scanner backtracks to before the [e]. *)
Definition exponent (s : str) : option (bool * str) * str :=
  match s with
  | e :: r =>
      if (e =? 101) || (e =? 69) then
        let '(eneg, r1) := take_sign r in
        let '(ds, t) := span_digits r1 in
        match ds with
        | [] => (None, s)
        | _ :: _ => (Some (eneg, ds), t)
        end
      else (None, s)
  | [] => (None, s)
  end.

Definition match_number (s : str) : option (pyval * str) :=
  let '(neg, s1) := take_minus s in
  match int_digits s1 with
  | None => None
  | Some (ids, s2) =>
      let '(fds, s3) := frac_digits s2 in
      let '(ex, s4) := exponent s3 in
      match fds, ex with
      | [], None =>
          let n := Z.of_N (digits_value ids) in
          Some (PInt (if neg then - n else n)%Z, s4)
      | _, _ =>
          let e := match ex with
                   | Some (eneg, eds) =>
                       let x := Z.of_N (digits_value eds) in
                       (if eneg then - x else x)%Z
                   | None => 0%Z
                   end in
          Some (PFloat (float_of_decimal neg (digits_value (ids ++ fds))
                          (e - Z.of_nat (length fds))), s4)
      end
  end.

(** The named constants, then numbers. *)
Definition scan_atom (s : str) : scan pyval :=
  if startswith s (lit "null") then Scanned PNone (skipn 4 s)
  else if startswith s (lit "true") then Scanned (PBool true) (skipn 4 s)
  else if startswith s (lit "false") then Scanned (PBool false) (skipn 5 s)
  else if startswith s (lit "NaN") then Scanned (PFloat S754_nan) (skipn 3 s)
  else if startswith s (lit "Infinity")
       then Scanned (PFloat (S754_infinity false)) (skipn 8 s)
  else if startswith s (lit "-Infinity")
       then Scanned (PFloat (S754_infinity true)) (skipn 9 s)
  else match match_number s with
       | Some (v, t) => Scanned v t
       | None => Failed ExpectingValue (length s)
       end.

(** ** Values, arrays and objects

    [fuel] bounds the number of nested calls; [2 * length s + 1] is enough
    for a text [s] (lemma [scan_once_fuel] below). *)
Fixpoint scan_once (fuel : nat) (s : str) : scan pyval :=
  match fuel with
  | O => Failed ExpectingValue (length s)
  | S f =>
      match s with
      | [] => Failed ExpectingValue 0
      | c :: r =>
          if c =? QUOTE then
            match scanstring (length s) [] r with
            | Scanned k t => Scanned (PStr k) t
            | Failed m n => Failed m n
            end
          else if c =? 123 then                       (* { *)
            match skip_ws r with
            | c1 :: r1 => if c1 =? 125 then Scanned (PDict []) r1
                          else parse_object f [] (c1 :: r1)
            | [] => parse_object f [] []
            end
          else if c =? 91 then                        (* [ *)
            match skip_ws r with
            | c1 :: r1 => if c1 =? 93 then Scanned (PList []) r1
                          else parse_array f [] (c1 :: r1)
            | [] => parse_array f [] []
            end
          else scan_atom s
      end
  end

(** The members of an object after [{] or [,] and whitespace. *)
with parse_object (fuel : nat) (d : list (str * pyval)) (s : str)
  : scan pyval :=
  match fuel with
  | O => Failed ExpectingValue (length s)
  | S f =>
      match s with
      | c :: r =>
          if c =? QUOTE then
            match scanstring (length s) [] r with
            | Failed m n => Failed m n
            | Scanned key t =>
                match skip_ws t with
                | c1 :: r1 =>
                    if c1 =? 58 then                  (* : *)
                      match scan_once f (skip_ws r1) with
                      | Failed m n => Failed m n
                      | Scanned val t1 =>
                          let d' := dict_set d key val in
                          match skip_ws t1 with
                          | c2 :: r2 =>
                              if c2 =? 125 then Scanned (PDict d') r2
                              else if c2 =? 44 then
                                parse_object f d' (skip_ws r2)
                              else Failed ExpectingComma (length (c2 :: r2))
                          | [] => Failed ExpectingComma 0
                          end
                      end
                    else Failed ExpectingColon (length (c1 :: r1))
                | [] => Failed ExpectingColon 0
                end
            end
          else Failed ExpectingPropertyName (length s)
      | [] => Failed ExpectingPropertyName 0
      end
  end

(** The items of an array after [[] or [,] and whitespace. *)
with parse_array (fuel : nat) (acc : list pyval) (s : str) : scan pyval :=
  match fuel with
  | O => Failed ExpectingValue (length s)
  | S f =>
      match scan_once f s with
      | Failed m n => Failed m n
      | Scanned val t =>
          match skip_ws t with
          | c :: r =>
              if c =? 93 then Scanned (PList (acc ++ [val])) r
              else if c =? 44 then parse_array f (acc ++ [val]) (skip_ws r)
              else Failed ExpectingComma (length (c :: r))
          | [] => Failed ExpectingComma 0
          end
      end
  end.

(** ** [JSONDecodeError] and [loads] *)

Definition decimal (n : nat) : str :=
  lit (DecimalString.NilEmpty.string_of_uint (Nat.to_uint n)).

(** [doc.count('\n', 0, pos) + 1] *)
Definition lineno (doc : str) (pos : nat) : nat :=
  S (length (filter (fun c => c =? NEWLINE) (firstn pos doc))).

(** [pos - doc.rfind('\n', 0, pos)] *)
Fixpoint until_newline (s : str) : nat :=
  match s with
  | c :: r => if c =? NEWLINE then O else S (until_newline r)
  | [] => O
  end.

Definition colno (doc : str) (pos : nat) : nat :=
  S (until_newline (rev (firstn pos doc))).

(** [JSONDecodeError(msg, doc, pos)]; its string form is
    [msg: line L column C (char P)]. *)
Definition decode_error (m : errmsg) (doc : str) (pos : nat) : exn :=
  mk_exn JSONDecodeError
    (errmsg_text m ++ lit ": line " ++ decimal (lineno doc pos)
     ++ lit " column " ++ decimal (colno doc pos)
     ++ lit " (char " ++ decimal pos ++ lit ")").

Definition fuel_for (s : str) : nat := 2 * length s + 1.

(** [json.loads(s)] for a [str] argument. *)
Definition loads (s : str) : result pyval :=
  if startswith s [65279] then Raise (decode_error UnexpectedBOM s 0)
  else
    match scan_once (fuel_for s) (skip_ws s) with
    | Failed m n => Raise (decode_error m s (length s - n))
    | Scanned obj t =>
        match skip_ws t with
        | [] => Ok obj
        | t1 => Raise (decode_error ExtraData s (length s - length t1))
        end
    end.

End Json.

(* ===================================================================== *)
(** * The request handler *)
(* ===================================================================== *)

Definition join_lines (ls : list str) : str :=
  match ls with
  | [] => []
  | l :: r => l ++ flat_map (fun x => NEWLINE :: x) r
  end.

(** The system prompt, character for character. *)
Definition SYSTEM_PROMPT : str := join_lines [
    lit "You are a hotel policy extraction system for an Indian travel booking platform.";
    [];
    lit "You will receive raw hotel policy text from a supplier. Your job is to:";
    lit "1. Break the text into individual, distinct policy statements (atoms)";
    lit "2. Classify each atom into a category and sensitivity level";
    lit "3. Rewrite each atom for clarity while preserving the original detail and meaning";
    [];
    lit "---";
    [];
    lit "IMPORTANT: The supplier's title field (e.g. " ++ [QUOTE] ++ lit "Guest Profile" ++ [QUOTE] ++ lit ", " ++ [QUOTE] ++ lit "Other Rules" ++ [QUOTE] ++ lit ", " ++ [QUOTE] ++ lit "Common" ++ [QUOTE] ++ lit ") is ONLY for traceability. Do NOT use it to determine the category or sensitivity. Classify each policy atom SOLELY based on what the policy text says.";
    [];
    lit "A policy titled " ++ [QUOTE] ++ lit "Other Rules" ++ [QUOTE] ++ lit " can contain critical couple restrictions.";
    lit "A policy titled " ++ [QUOTE] ++ lit "Food & Beverages" ++ [QUOTE] ++ lit " can contain mandatory charges.";
    lit "A policy titled " ++ [QUOTE] ++ lit "Check-in Check-out Policy" ++ [QUOTE] ++ lit " can contain ID denial clauses.";
    lit "Always read the actual text. The title means nothing for classification.";
    [];
    lit "---";
    [];
    lit "TAXONOMY:";
    [];
    lit "CRITICAL " ++ [EM_DASH] ++ lit " policies that cause check-in denial, surprise financial charges, or trip-breaking restrictions:";
    [];
    lit "- couple_restriction: Unmarried or unrelated couples not allowed, or allowed only with conditions (both IDs required, marriage certificate needed, etc.)";
    lit "- local_id_restriction: Local IDs not accepted for check-in, same-city residents not allowed, right of admission reserved for local residents";
    lit "- mandatory_charges: Compulsory charges NOT included in the booking price " ++ [EM_DASH] ++ lit " gala dinner supplements, mandatory meal charges, seasonal tariff differences payable at hotel. Must involve a specific charge or explicit " ++ [QUOTE] ++ lit "not included in booking" ++ [QUOTE] ++ lit " language. Optional fees (breakfast, rollaway bed) are NOT mandatory_charges.";
    lit "- age_restriction: Minimum age requirement for check-in (e.g. 18+, 21+), bachelors or stag entry not allowed, adults-only property";
    lit "- nationality_restriction: Only Indian nationals allowed, foreign nationals need specific documents, certain nationalities restricted";
    lit "- facility_closure: Swimming pool, gym, spa, restaurant, or elevator closed, under renovation, or not operational. Must be a current/active closure, not a general amenity description.";
    [];
    lit "STANDARD " ++ [EM_DASH] ++ lit " informational policies, manageable at check-in, not trip-breaking:";
    [];
    lit "- guest_profile: Couple/unmarried friendly status, male stags allowed or not, adults-only or children allowed, bachelor group policy. Use this for informational guest-type statements that do NOT involve check-in denial. If the text says check-in will be DENIED, use the relevant critical category instead.";
    lit "- id_documentation: List of accepted ID proof types (Aadhaar, passport, driving license, etc.). Note: if the text also says check-in will be DENIED without ID and no refund given, classify that denial clause as critical under the most relevant critical category, and the ID list itself as standard under id_documentation.";
    lit "- checkin_checkout: Check-in and check-out timings, early check-in or late check-out fees and availability, front desk hours, key collection process";
    lit "- child_policy: Children stay free below what age, children chargeable above what age and at what rate, complimentary food for children, infant policy, cribs/cots availability";
    lit "- extra_bed: Extra bed or mattress availability, charges per night, rollaway bed policy, maximum occupancy rules";
    lit "- food_beverage: Outside food allowed or not, non-veg food allowed or not, alcohol consumption rules, food delivery (Swiggy/Zomato) allowed or not, in-room dining, complimentary breakfast/meals, restaurant info";
    lit "- smoking_policy: Smoking rules " ++ [EM_DASH] ++ lit " where allowed, where restricted, designated smoking areas, penalties for smoking in non-smoking rooms";
    lit "- pet_policy: Pets allowed or not, service animals policy, pet fees, pet deposit, pets on property";
    lit "- security_deposit: Refundable or non-refundable security deposit amount, payment mode for deposit, refund timeline, damage deposit";
    lit "- payment_methods: Accepted payment modes " ++ [EM_DASH] ++ lit " cards, UPI, cash, mobile payments";
    lit "- cancellation_refund: Cancellation deadline (free cancellation before X date/time), cancellation penalties, no-show charges and policy, modification fees, refund terms and timeline";
    lit "- outside_visitors: Visitor entry policy, visitor hours, charges for day visitors, whether non-guests are allowed in rooms or common areas";
    lit "- damage_policy: Damage charges, liability for property damage, penalties for broken items, linen damage fees";
    lit "- long_stay: Policies for stays of 30+ nights, monthly stay rules, extended stay conditions, long-term booking discounts";
    lit "- party_event_policy: Party/event rules, noise restrictions, quiet hours, music cutoff time, DJ policy, celebration rules";
    lit "- accessibility: Wheelchair accessibility, elevator availability, disabled-friendly facilities, accessible rooms. Note: if the property is NOT accessible or has no elevator, this is still standard unless it represents a closure/breakdown (which would be facility_closure).";
    lit "- safety_information: Fire safety, emergency exits, CCTV, security guards, COVID protocols, sanitization measures, health requirements, safe deposit box";
    lit "- property_rules: Curfew timings, parking, general amenity info, any other property rules not covered by the categories above";
    [];
    lit "OTHERS " ++ [EM_DASH] ++ lit " use this when the policy text does not fit cleanly into any of the above categories, or when you are not confident about the correct classification. Always standard sensitivity.";
    [];
    lit "---";
    [];
    lit "EXTRACTION RULES:";
    [];
    lit "1. One input blob may contain MULTIPLE distinct policy statements separated by |||, newlines, numbered lists, or just run-on sentences. Extract EACH as a separate atom.";
    [];
    lit "2. Display text: Write concise, scannable policy statements. Keep critical specifics (amounts, ages, ID types) but cut filler words and repetitive phrasing. Aim for 1 short sentence per atom, 2 sentences max only when a consequence must be stated. Do not repeat the same information in different words within one atom.";
    lit "   - BAD (too long): " ++ [QUOTE] ++ lit "All guests above 18 years of age must carry a valid photo identity card and address proof at check-in. Failure to provide these documents can result in the hotel denying check-in with no refund." ++ [QUOTE];
    lit "   - GOOD: " ++ [QUOTE] ++ lit "Valid photo ID and address proof mandatory at check-in. Check-in denied with no refund if not provided." ++ [QUOTE];
    lit "   - BAD (too vague): " ++ [QUOTE] ++ lit "Extra charges may apply" ++ [QUOTE];
    lit "   - GOOD: " ++ [QUOTE] ++ lit "Extra bed at INR 500/night, payable at property" ++ [QUOTE];
    lit "   - BAD (multiple atoms): " ++ [QUOTE] ++ lit "Couples not allowed no refund ID required 18+ only" ++ [QUOTE];
    lit "   - GOOD: Split into separate atoms, one per distinct policy";
    [];
    lit "3. If a policy statement contains BOTH a rule AND a consequence (e.g. " ++ [QUOTE] ++ lit "Valid ID is mandatory. Failure to produce ID will result in check-in denial with no refund" ++ [QUOTE] ++ lit "), extract them as a SINGLE atom " ++ [EM_DASH] ++ lit " do not split the rule from its consequence. The consequence is what determines the sensitivity.";
    [];
    lit "4. Skip generic boilerplate that adds no specific information to the user:";
    lit "   - " ++ [QUOTE] ++ lit "Special requests are subject to availability" ++ [QUOTE];
    lit "   - " ++ [QUOTE] ++ lit "Additional charges may apply" ++ [QUOTE];
    lit "   - " ++ [QUOTE] ++ lit "Please contact the property for details" ++ [QUOTE];
    lit "   These are noise. Do not extract them.";
    [];
    lit "5. Skip empty, meaningless, or placeholder text (e.g. " ++ [QUOTE] ++ lit "." ++ [QUOTE] ++ lit ", " ++ [QUOTE] ++ lit ".." ++ [QUOTE] ++ lit ", blank text). Return an empty array.";
    [];
    lit "6. For policies with specific monetary amounts, ALWAYS preserve the exact amount clearly in the display text. Format prices prominently " ++ [EM_DASH] ++ lit " e.g. " ++ [QUOTE] ++ lit "INR 3,500 per person" ++ [QUOTE] ++ lit ", " ++ [QUOTE] ++ lit "INR 500/night" ++ [QUOTE] ++ lit ", " ++ [QUOTE] ++ lit "Rs. 2,000 refundable deposit" ++ [QUOTE] ++ lit ". Never drop, round, or obscure any price. If a price range is mentioned, preserve both ends. If currency is not specified, assume INR. Prices are the most important detail users look for " ++ [EM_DASH] ++ lit " make them impossible to miss.";
    [];
    lit "7. If you are unsure about the category, use " ++ [QUOTE] ++ lit "others" ++ [QUOTE] ++ lit " with sensitivity " ++ [QUOTE] ++ lit "standard" ++ [QUOTE] ++ lit ". Do not force a classification you are not confident about.";
    [];
    lit "8. Confidence scoring:";
    lit "   - 0.90-1.00: Text clearly and unambiguously matches the category. No interpretation needed.";
    lit "   - 0.75-0.89: Text strongly implies the category but has some ambiguity in wording.";
    lit "   - 0.60-0.74: Text is vague or could belong to multiple categories. You made a judgment call.";
    lit "   - Below 0.60: You are guessing. Use " ++ [QUOTE] ++ lit "others" ++ [QUOTE] ++ lit " category instead.";
    [];
    lit "---";
    [];
    lit "OUTPUT FORMAT:";
    [];
    lit "Return ONLY a JSON object with a " ++ [QUOTE] ++ lit "policies" ++ [QUOTE] ++ lit " key containing an array. Each item:";
    lit "{";
    lit "  " ++ [QUOTE] ++ lit "policies" ++ [QUOTE] ++ lit ": [";
    lit "    {";
    lit "      " ++ [QUOTE] ++ lit "display_text" ++ [QUOTE] ++ lit ": " ++ [QUOTE] ++ lit "Clean, readable policy statement preserving all specific details" ++ [QUOTE] ++ lit ",";
    lit "      " ++ [QUOTE] ++ lit "category" ++ [QUOTE] ++ lit ": " ++ [QUOTE] ++ lit "one of the taxonomy slugs above" ++ [QUOTE] ++ lit ",";
    lit "      " ++ [QUOTE] ++ lit "sensitivity" ++ [QUOTE] ++ lit ": " ++ [QUOTE] ++ lit "critical" ++ [QUOTE] ++ lit " or " ++ [QUOTE] ++ lit "standard" ++ [QUOTE] ++ lit ",";
    lit "      " ++ [QUOTE] ++ lit "confidence" ++ [QUOTE] ++ lit ": 0.0 to 1.0";
    lit "    }";
    lit "  ]";
    lit "}";
    [];
    lit "If the input text is empty or contains no extractable policies, return: {" ++ [QUOTE] ++ lit "policies" ++ [QUOTE] ++ lit ": []}" ].

(** The keyword arguments of [client.messages.create], with the key the
    client was built with. *)
Record create_args := {
  client_api_key : str;
  model : str;
  max_tokens : Z;
  temperature : spec_float;
  system : str;
  messages : list (str * str)          (* role, content *)
}.

(** What the reply holds: [message.content] is a list of blocks, of which
    only a text block has a [text] attribute. *)
Inductive content_block :=
| TextBlock (text : str)
| OtherBlock (class_name : str).

(** The external API: a call returns the content of a message or raises. *)
Definition upstream := create_args -> result (list content_block).

(** What the view function hands back to Flask: a JSON body with a status,
    or an exception that leaves the function. *)
Inductive response :=
| Json (status : Z) (body : pyval)
| Uncaught (e : exn).

(** [jsonify(error=msg)] and [jsonify(policies=v)] *)
Definition jsonify_error (msg : str) : pyval := PDict [(lit "error", PStr msg)].
Definition jsonify_policies (v : pyval) : pyval := PDict [(lit "policies", v)].

(** [os.environ.get(name, default)] *)
Fixpoint environ_get (environ : list (str * str)) (name default : str) : str :=
  match environ with
  | [] => default
  | (k, v) :: r => if str_eqb k name then v else environ_get r name default
  end.

Definition is_empty (s : str) : bool :=
  match s with [] => true | _ :: _ => false end.

(** Lines 131-132: the two fields of the request. *)
Definition read_fields (environ : list (str * str)) (data : pyval)
  : result (str * str) :=
  let* v := py_get data "policy_text" PNone in
  let* policy_text := py_strip (py_or v (PStr [])) in
  let* k := py_get data "api_key" PNone in
  let* key := py_strip (py_or k (PStr [])) in
  let api_key := if is_empty key
                 then environ_get environ (lit "ANTHROPIC_API_KEY") []
                 else key in
  Ok (policy_text, api_key).

(** The literal [0.2]. *)
Definition TEMPERATURE : spec_float := S754_finite false 7205759403792794 (-55).

Definition FENCE : str := lit "```".
Definition TRIPLE_QUOTE : str := [QUOTE; QUOTE; QUOTE].

(** Lines 144-150: the arguments of the one call. *)
Definition request_args (api_key policy_text : str) : create_args :=
  {| client_api_key := api_key;
     model := lit "claude-sonnet-4-20250514";
     max_tokens := 4096;
     temperature := TEMPERATURE;
     system := SYSTEM_PROMPT;
     messages := [(lit "user",
                   lit "Policy text:" ++ [NEWLINE] ++ TRIPLE_QUOTE
                   ++ policy_text ++ TRIPLE_QUOTE)] |}.

(** Line 152: [message.content[0].text] *)
Definition first_text (content : list content_block) : result str :=
  match content with
  | [] => Raise (mk_exn IndexError (lit "list index out of range"))
  | TextBlock t :: _ => Ok t
  | OtherBlock n :: _ => Raise (no_attribute n "text")
  end.

(** Lines 156-163: strip markdown code fences if present. *)
Definition strip_fences (response_text : str) : result str :=
  let cleaned := strip response_text in
  let* cleaned :=
    if startswith cleaned FENCE then
      match index cleaned NEWLINE with
      | Some first_newline => Ok (slice_from (first_newline + 1) cleaned)
      | None => Raise (mk_exn ValueError (lit "substring not found"))
      end
    else Ok cleaned in
  let cleaned :=
    if endswith cleaned FENCE then slice_drop_last 3 cleaned else cleaned in
  Ok (strip cleaned).

(** Line 166: [parsed.get('policies', []) if isinstance(parsed, dict)
    else parsed] *)
Definition select_policies (parsed : pyval) : result pyval :=
  match parsed with
  | PDict _ => py_get parsed "policies" (PList [])
  | _ => Ok parsed
  end.

(** Lines 170-171: what one turn of the logging loop evaluates.  The text
    it prints goes to the console and is not part of the response. *)
Definition log_atom (p : pyval) : result unit :=
  let* sensitivity := py_get p "sensitivity" PNone in
  let* category := py_get p "category" PNone in
  let* display_text := py_get p "display_text" (PStr []) in
  let* shown := py_slice_to display_text 70 in
  Ok tt.

Fixpoint log_atoms (ps : list pyval) : result unit :=
  match ps with
  | [] => Ok tt
  | p :: r => let* _ := log_atom p in log_atoms r
  end.

(** Lines 168-172: the summary printed before the response is built. *)
Definition log_policies (policies : pyval) : result pyval :=
  let* count := py_len policies in
  let* _ := log_atoms (py_iter policies) in
  Ok policies.

(** Lines 143-174: the body of the [try] statement. *)
Definition try_body (create : upstream) (args : create_args) : result pyval :=
  let* content := create args in
  let* response_text := first_text content in
  let* cleaned := strip_fences response_text in
  let* parsed := Json.loads cleaned in
  let* policies := select_policies parsed in
  log_policies policies.

(** Lines 176-184: the three [except] clauses, tried in order. *)
Definition on_exception (e : exn) : response :=
  match exn_cls e with
  | APIError =>
      Json 500 (jsonify_error (lit "Claude API error: " ++ exn_str e))
  | JSONDecodeError =>
      Json 500 (jsonify_error
                  (lit "Failed to parse Claude response as JSON: " ++ exn_str e))
  | _ => Json 500 (jsonify_error (exn_str e))
  end.

(** The view function.  [data] is what [request.get_json(force=True)]
    returned, [environ] the process environment and [create] the external
    API.  The result is the response and the calls made to the API, in
    order. *)
Definition process (environ : list (str * str)) (create : upstream)
    (data : pyval) : response * list create_args :=
  match read_fields environ data with
  | Raise e => (Uncaught e, [])
  | Ok (policy_text, api_key) =>
      if is_empty api_key then
        (Json 400 (jsonify_error (lit "No Anthropic API key provided.")), [])
      else if is_empty policy_text then
        (Json 400 (jsonify_error (lit "No policy text provided.")), [])
      else
        let args := request_args api_key policy_text in
        (match try_body create args with
         | Ok policies => Json 200 (jsonify_policies policies)
         | Raise e => on_exception e
         end, [args])
  end.

(* ===================================================================== *)
(** * Notions used in the statements and in the proofs *)
(* ===================================================================== *)

(** ** Strings *)

(** A text is trimmed when neither of its ends is a space. *)
Definition hd_ok (s : str) : bool :=
  match s with
  | [] => true
  | c :: _ => negb (isspace c)
  end.

Definition trimmed (s : str) : bool := hd_ok s && hd_ok (rev s).

Import Json.

(** ** The decoder *)

(** A character that shows: neither a space nor a backtick. *)
Definition visible (c : char) : bool := negb (isspace c) && negb (c =? BACKTICK).

(** [t] is what is left of [s] after a text that ends in a visible
    character. *)
Definition closes (s t : str) : Prop :=
  exists pre c, s = pre ++ c :: t /\ visible c = true.

Definition hd_visible (s : str) : bool :=
  match s with
  | c :: _ => visible c
  | [] => false
  end.

(** A scan that succeeds starts and ends at a visible character. *)
Definition good_once (f : nat) : Prop :=
  forall s v t, scan_once f s = Scanned v t -> closes s t /\ hd_visible s = true.

Definition good_object (f : nat) : Prop :=
  forall d s v t,
    parse_object f d s = Scanned v t -> closes s t /\ hd_visible s = true.

Definition good_array (f : nat) : Prop :=
  forall acc s v t,
    parse_array f acc s = Scanned v t -> closes s t /\ hd_visible s = true.

(** Above the bound the result of a scan no longer depends on the fuel. *)
Definition stable_once (f : nat) : Prop :=
  forall s, (2 * length s + 1 <= f)%nat -> scan_once (S f) s = scan_once f s.

Definition stable_object (f : nat) : Prop :=
  forall d s, (2 * length s + 2 <= f)%nat ->
    parse_object (S f) d s = parse_object f d s.

Definition stable_array (f : nat) : Prop :=
  forall acc s, (2 * length s + 2 <= f)%nat ->
    parse_array (S f) acc s = parse_array f acc s.

(** The first character, if any, satisfies [P]. *)
Definition headp (P : char -> bool) (x : str) : bool :=
  match x with
  | [] => true
  | c :: _ => P c
  end.

Definition not_digit (c : char) : bool := negb (is_digit c).
Definition not_fraction (c : char) : bool := negb (is_digit c) && negb (c =? 46).
Definition not_number (c : char) : bool :=
  negb (is_digit c) && negb (c =? 46) && negb (c =? 101) && negb (c =? 69).

(** A text that cannot continue a number. *)
Definition stops (x : str) : bool := headp not_number x.

(** A number starts with a digit, or with a minus sign and a digit. *)
Definition number_head (mid : str) : bool :=
  match mid with
  | [] => false
  | c :: r =>
      is_digit c
      || ((c =? 45) && match r with d :: _ => is_digit d | [] => false end)
  end.

(** [run] returns [v] at the end of a text [mid], whatever text that
    cannot continue a number comes after it. *)
Definition cuts (run : str -> scan pyval) (s : str) (v : pyval) (t : str)
  : Prop :=
  exists mid,
    s = mid ++ t
    /\ hd_visible mid = true
    /\ forall x, stops x = true -> run (mid ++ x) = Scanned v x.

Definition cut_once (f : nat) : Prop :=
  forall s v t, scan_once f s = Scanned v t -> cuts (scan_once f) s v t.

Definition cut_object (f : nat) : Prop :=
  forall d s v t,
    parse_object f d s = Scanned v t -> cuts (parse_object f d) s v t.

Definition cut_array (f : nat) : Prop :=
  forall acc s v t,
    parse_array f acc s = Scanned v t -> cuts (parse_array f acc) s v t.

(** ** Requests, replies and responses *)

(** The text a field of the request holds: the string itself, the empty
    string when the field is absent or holds a falsy value ([null],
    [false], [0], an empty array or object), and no text at all when the
    body is not an object or the field holds any other value. *)
Definition field_text (data : pyval) (k : string) : option str :=
  match data with
  | PDict d =>
      match dict_lookup d (lit k) with
      | None => Some []
      | Some v => if truthy v
                  then match v with PStr s => Some s | _ => None end
                  else Some []
      end
  | _ => None
  end.

(** The key the handler works with, for the text [k] of the [api_key]
    field. *)
Definition api_key_used (environ : list (str * str)) (k : str) : str :=
  if is_empty (strip k)
  then environ_get environ (lit "ANTHROPIC_API_KEY") []
  else strip k.

(** Requests of the tests: a body with the two fields, and an API that
    answers every call with one text block. *)
Definition request_body (policy_text api_key : str) : pyval :=
  PDict [(lit "policy_text", PStr policy_text); (lit "api_key", PStr api_key)].

Definition stub (reply : str) : upstream := fun _ => Ok [TextBlock reply].

(** A key between double quotes, as JSON texts write it. *)
Definition quoted (s : string) : str := QUOTE :: lit s ++ [QUOTE].


Definition reply_bare_array : str :=
  lit "[{" ++ quoted "display_text" ++ lit ": " ++ quoted "No pets." ++ lit "}]".

(** What the logging loop can print: an object whose [display_text] is
    absent, a string or an array. *)
Definition printable (p : pyval) : bool :=
  match p with
  | PDict d =>
      match dict_lookup d (lit "display_text") with
      | None | Some (PStr _) | Some (PList _) => true
      | Some _ => false
      end
  | _ => false
  end.






Definition reply_null_display_text : str :=
  lit "{" ++ quoted "policies" ++ lit ": [{" ++ quoted "display_text"
  ++ lit ": null, " ++ quoted "category" ++ lit ": " ++ quoted "others"
  ++ lit "}]}".

(** Lines 156-165: from the text of the reply to the parsed value. *)
Definition parse_reply (response_text : str) : result pyval :=
  let* cleaned := strip_fences response_text in
  Json.loads cleaned.

(** Fence-stripping applied to its own result. *)
Definition strip_fences_twice (response_text : str) : result str :=
  let* cleaned := strip_fences response_text in
  strip_fences cleaned.

(** A text between an opening fence line, with language tag [lang], and a
    closing fence after the spaces [sep]. *)
Definition fenced (lang t sep : str) : str :=
  FENCE ++ lang ++ [NEWLINE] ++ t ++ sep ++ FENCE.

Definition no_newline (s : str) : bool :=
  forallb (fun c => negb (c =? NEWLINE)) s.

Definition reply_fenced_twice : str :=
  fenced (lit "json") (fenced (lit "json") (lit "[]") [NEWLINE]) [NEWLINE].

(** ** Notions used in the further properties *)







(** The text of a reply that was cut short before its closing fence. *)
Definition reply_cut_short : str := lit "[1, 2]" ++ [NEWLINE].



Definition tool_use_only : upstream :=
  fun _ => Ok [OtherBlock (lit "ToolUseBlock"); TextBlock (lit "[]")].



(* ===================================================================== *)
(** * Facts about the string primitives *)
(* ===================================================================== *)

Lemma lstrip_suffix (s : str) : exists w, s = w ++ lstrip s /\ forallb isspace w = true.
Proof.
  induction s as [|c r [w [Hw Hs]]]; simpl.
  - exists []; auto.
  - destruct (isspace c) eqn:E.
    + exists (c :: w); simpl. rewrite E, Hs. split; [now rewrite <- Hw | reflexivity].
    + exists []; auto.
Qed.

Lemma lstrip_hd_ok (s : str) : hd_ok (lstrip s) = true.
Proof.
  induction s as [|c r IH]; simpl; auto.
  destruct (isspace c) eqn:E; auto. simpl. now rewrite E.
Qed.

Lemma lstrip_fix (s : str) : hd_ok s = true -> lstrip s = s.
Proof.
  destruct s as [|c r]; simpl; auto.
  destruct (isspace c); simpl; [discriminate | reflexivity].
Qed.

Lemma lstrip_spaces (w s : str) :
  forallb isspace w = true -> lstrip (w ++ s) = lstrip s.
Proof.
  induction w as [|c w IH]; simpl; auto.
  intros H. apply andb_prop in H as [Hc Hw]. rewrite Hc. auto.
Qed.

Lemma lstrip_app (s w : str) :
  lstrip s <> [] -> lstrip (s ++ w) = lstrip s ++ w.
Proof.
  induction s as [|c r IH]; simpl; [congruence|].
  destruct (isspace c); auto.
Qed.

Lemma lstrip_all_space (s : str) :
  lstrip s = [] <-> forallb isspace s = true.
Proof.
  induction s as [|c r IH]; simpl; [tauto|].
  destruct (isspace c); simpl; [exact IH | split; discriminate].
Qed.

Lemma rstrip_prefix (s : str) :
  exists w, s = rstrip s ++ w /\ forallb isspace w = true.
Proof.
  unfold rstrip. destruct (lstrip_suffix (rev s)) as [w [Hw Hs]].
  exists (rev w). split.
  - rewrite <- rev_app_distr, <- Hw. now rewrite rev_involutive.
  - rewrite forallb_forall in *. intros x Hx. apply Hs. now apply in_rev.
Qed.

Lemma rstrip_spaces (s w : str) :
  forallb isspace w = true -> rstrip (s ++ w) = rstrip s.
Proof.
  intros H. unfold rstrip. rewrite rev_app_distr, lstrip_spaces; auto.
  rewrite forallb_forall in *. intros x Hx. apply H. now apply in_rev.
Qed.

Lemma rstrip_fix (s : str) : hd_ok (rev s) = true -> rstrip s = s.
Proof.
  intros H. unfold rstrip. rewrite lstrip_fix by assumption.
  apply rev_involutive.
Qed.

Lemma rstrip_hd_ok (s : str) : hd_ok s = true -> hd_ok (rstrip s) = true.
Proof.
  intros H. destruct (rstrip_prefix s) as [w [Hw _]].
  destruct (rstrip s) as [|c r] eqn:E; auto.
  rewrite Hw in H. exact H.
Qed.

Lemma strip_trimmed (s : str) : trimmed (strip s) = true.
Proof.
  unfold trimmed, strip. apply andb_true_intro. split.
  - apply rstrip_hd_ok, lstrip_hd_ok.
  - unfold rstrip. rewrite rev_involutive. apply lstrip_hd_ok.
Qed.

Lemma strip_fix (s : str) : trimmed s = true -> strip s = s.
Proof.
  unfold trimmed, strip. intros H. apply andb_prop in H as [H1 H2].
  rewrite (lstrip_fix s H1). now apply rstrip_fix.
Qed.

Lemma strip_idempotent (s : str) : strip (strip s) = strip s.
Proof. apply strip_fix, strip_trimmed. Qed.

(** Spaces around a trimmed text are all that [strip] removes. *)
Lemma strip_spaces_r (s w : str) :
  forallb isspace w = true -> strip (s ++ w) = strip s.
Proof.
  intros H. unfold strip.
  destruct (lstrip s) as [|c r] eqn:E.
  - assert (forallb isspace (s ++ w) = true) as Hall.
    { rewrite forallb_app, H, andb_true_r. now apply lstrip_all_space. }
    apply lstrip_all_space in Hall. now rewrite Hall.
  - rewrite lstrip_app by congruence. rewrite E. now apply rstrip_spaces.
Qed.

Lemma strip_spaces_l (w s : str) :
  forallb isspace w = true -> strip (w ++ s) = strip s.
Proof. intros H. unfold strip. now rewrite lstrip_spaces. Qed.

Lemma strip_around (w1 mid w2 : str) :
  forallb isspace w1 = true -> forallb isspace w2 = true ->
  trimmed mid = true -> strip (w1 ++ mid ++ w2) = mid.
Proof.
  intros H1 H2 Hm. rewrite strip_spaces_l by assumption.
  rewrite strip_spaces_r by assumption. now apply strip_fix.
Qed.

Lemma strip_blank (s : str) : strip s = [] <-> forallb isspace s = true.
Proof.
  split; intros H.
  - unfold strip in H. destruct (rstrip_prefix (lstrip s)) as [w [Hw Hs]].
    rewrite H in Hw. simpl in Hw.
    destruct (lstrip_suffix s) as [w' [Hw' Hs']].
    rewrite Hw', forallb_app, Hs'. simpl. now rewrite Hw.
  - unfold strip. apply lstrip_all_space in H. now rewrite H.
Qed.


Lemma index_none (s : str) (c : char) : ~ In c s -> index s c = None.
Proof.
  induction s as [|a r IH]; simpl; auto.
  intros H. destruct (N.eqb_spec a c) as [->|Hne].
  - exfalso. apply H. now left.
  - rewrite IH; auto.
Qed.

(** The first occurrence, when the text before it is free of [c]. *)
Lemma index_app (pre post : str) (c : char) :
  ~ In c pre -> index (pre ++ c :: post) c = Some (length pre).
Proof.
  induction pre as [|a r IH]; simpl; intros H.
  - now rewrite N.eqb_refl.
  - destruct (N.eqb_spec a c) as [->|Hne].
    + exfalso. apply H. now left.
    + rewrite IH; auto.
Qed.

Lemma startswith_app (p s : str) : startswith (p ++ s) p = true.
Proof.
  induction p as [|a p IH]; cbn [startswith app]; auto.
  now rewrite N.eqb_refl, IH.
Qed.

Lemma startswith_inv (s p : str) :
  startswith s p = true -> exists t, s = p ++ t.
Proof.
  revert s. induction p as [|a p IH]; intros s H; simpl in *.
  - now exists s.
  - destruct s as [|b s]; [discriminate|].
    apply andb_prop in H as [Hab Hs]. apply N.eqb_eq in Hab. subst b.
    destruct (IH s Hs) as [t ->]. now exists t.
Qed.

Lemma endswith_app (s p : str) : endswith (s ++ p) p = true.
Proof. unfold endswith. rewrite rev_app_distr. apply startswith_app. Qed.

Lemma slice_drop_last_app (s p : str) :
  slice_drop_last (length p) (s ++ p) = s.
Proof.
  unfold slice_drop_last. rewrite length_app.
  replace (length s + length p - length p)%nat with (length s + 0)%nat by lia.
  rewrite firstn_app_2. simpl. apply app_nil_r.
Qed.

(* ===================================================================== *)
(** * Facts about [json.loads] *)
(* ===================================================================== *)

Lemma closes_cons (a : char) (s t : str) : closes s t -> closes (a :: s) t.
Proof. intros [pre [c [-> V]]]. now exists (a :: pre), c. Qed.

Lemma closes_app (w s t : str) : closes s t -> closes (w ++ s) t.
Proof.
  intros [pre [c [-> V]]]. exists (w ++ pre), c.
  now rewrite <- app_assoc.
Qed.

Lemma closes_trans (s t u : str) : closes s t -> closes t u -> closes s u.
Proof.
  intros [pre [c [-> V]]] H. replace (pre ++ c :: t) with ((pre ++ [c]) ++ t).
  - now apply closes_app.
  - now rewrite <- app_assoc.
Qed.

Lemma closes_length (s t : str) : closes s t -> (length t < length s)%nat.
Proof.
  intros [pre [c [-> V]]]. rewrite length_app. simpl. lia.
Qed.

Lemma skip_ws_suffix (s : str) :
  exists w, s = w ++ skip_ws s /\ forallb is_ws w = true.
Proof.
  induction s as [|c r [w [Hw Hs]]]; simpl.
  - exists []; auto.
  - destruct (is_ws c) eqn:E.
    + exists (c :: w); simpl. rewrite E, Hs. split; [now rewrite <- Hw | reflexivity].
    + exists []; auto.
Qed.

Lemma skip_ws_length (s : str) : (length (skip_ws s) <= length s)%nat.
Proof.
  destruct (skip_ws_suffix s) as [w [Hw _]]. rewrite Hw at 2.
  rewrite length_app. lia.
Qed.

Lemma closes_skip_ws (s t : str) : closes (skip_ws s) t -> closes s t.
Proof.
  intros H. destruct (skip_ws_suffix s) as [w [Hw _]]. rewrite Hw.
  now apply closes_app.
Qed.

Lemma is_ws_isspace (c : char) : is_ws c = true -> isspace c = true.
Proof.
  unfold is_ws. intros H.
  repeat (apply orb_prop in H as [H|H]); apply N.eqb_eq in H; now subst c.
Qed.

Lemma skip_ws_nil (s : str) : skip_ws s = [] -> forallb is_ws s = true.
Proof.
  intros H. destruct (skip_ws_suffix s) as [w [Hw Hs]].
  rewrite H, app_nil_r in Hw. now subst w.
Qed.

(** ** Strings end at their closing quote *)

Lemma scanstring_closes (n : nat) :
  forall s begin acc k t,
    (length s < n)%nat ->
    scanstring begin acc s = Scanned k t ->
    exists pre, s = pre ++ QUOTE :: t.
Proof.
  induction n as [|n IH]; intros s begin acc k t Hn H; [lia|].
  assert (forall a x, (exists pre, x = pre ++ QUOTE :: t) ->
                      exists pre, a :: x = pre ++ QUOTE :: t) as step.
  { intros a x [pre ->]. now exists (a :: pre). }
  destruct s as [|c r]; cbn [scanstring] in H; [discriminate|].
  cbn [length] in Hn.
  repeat match type of H with
    | Failed _ _ = Scanned _ _ => discriminate H
    | Scanned _ _ = Scanned _ _ => inversion H; subst; clear H
    | scanstring _ _ _ = Scanned _ _ =>
        apply IH in H;
        [repeat (first [exact H | apply step]) | cbn [length] in *; lia]
    | context [if ?b then _ else _] => destruct b eqn:?
    | context [match ?x with _ => _ end] => destruct x eqn:?
    end.
  apply N.eqb_eq in Heqb. subst c. now exists [].
Qed.

Lemma QUOTE_visible : visible QUOTE = true.
Proof. reflexivity. Qed.

Lemma scanstring_closes_visible (s : str) begin acc k t :
  scanstring begin acc s = Scanned k t -> closes s t.
Proof.
  intros H. apply (scanstring_closes (S (length s))) in H as [pre ->]; [|lia].
  exists pre, QUOTE. auto using QUOTE_visible.
Qed.

(** ** Numbers end at a digit *)

Lemma is_digit_visible (c : char) : is_digit c = true -> visible c = true.
Proof.
  unfold is_digit. intros H. apply andb_prop in H as [L U].
  apply N.leb_le in L. apply N.leb_le in U.
  assert (c = 48 \/ c = 49 \/ c = 50 \/ c = 51 \/ c = 52 \/ c = 53
          \/ c = 54 \/ c = 55 \/ c = 56 \/ c = 57) as E by lia.
  repeat (destruct E as [->|E]; [reflexivity|]). now subst c.
Qed.

Lemma span_digits_spec (s ds t : str) :
  span_digits s = (ds, t) -> s = ds ++ t /\ forallb is_digit ds = true.
Proof.
  revert ds t. induction s as [|c r IH]; intros ds t H; cbn [span_digits] in H.
  - now inversion H.
  - destruct (is_digit c) eqn:D.
    + destruct (span_digits r) as [ds' t'] eqn:E. inversion H; subst.
      destruct (IH ds' t eq_refl) as [-> A]. simpl. now rewrite D, A.
    + now inversion H.
Qed.

Lemma digits_close (ds t : str) :
  ds <> [] -> forallb is_digit ds = true -> closes (ds ++ t) t.
Proof.
  intros N A. destruct (exists_last N) as [pre [c ->]].
  rewrite forallb_app in A. apply andb_prop in A as [_ A]. simpl in A.
  rewrite andb_true_r in A. exists pre, c.
  rewrite <- app_assoc. auto using is_digit_visible.
Qed.

Lemma int_digits_closes (s ids t : str) :
  int_digits s = Some (ids, t) -> closes s t /\ hd_visible s = true.
Proof.
  unfold int_digits. destruct s as [|c r]; [discriminate|].
  destruct ((49 <=? c) && (c <=? 57)) eqn:R.
  - destruct (span_digits r) as [ds t'] eqn:E. intros H. inversion H; subst.
    apply span_digits_spec in E as [-> A].
    assert (is_digit c = true) as D.
    { unfold is_digit. apply andb_prop in R as [L U].
      apply N.leb_le in L. rewrite U, andb_true_r. apply N.leb_le. lia. }
    split; [|now apply is_digit_visible].
    apply (digits_close (c :: ds) t); [discriminate|]. simpl. now rewrite D, A.
  - destruct (N.eqb_spec c 48) as [->|]; [|discriminate].
    intros H. inversion H; subst. split; [|reflexivity].
    now exists [], 48.
Qed.

Lemma frac_digits_closes (s fds t : str) :
  frac_digits s = (fds, t) -> t = s \/ closes s t.
Proof.
  unfold frac_digits. destruct s as [|dot [|d r]]; try (intros H; inversion H; auto).
  clear H. revert H1.
  destruct ((dot =? 46) && is_digit d) eqn:E.
  - destruct (span_digits r) as [ds t'] eqn:S. intros H. inversion H; subst.
    apply span_digits_spec in S as [-> A]. right.
    apply andb_prop in E as [_ D].
    apply closes_cons. apply (digits_close (d :: ds) t); [discriminate|].
    simpl. now rewrite D, A.
  - intros H. inversion H; auto.
Qed.

Lemma exponent_closes (s : str) ex (t : str) :
  exponent s = (ex, t) -> t = s \/ closes s t.
Proof.
  unfold exponent. destruct s as [|e r]; [intros H; inversion H; auto|].
  destruct ((e =? 101) || (e =? 69)); [|intros H; inversion H; auto].
  destruct (take_sign r) as [eneg r1] eqn:Sg.
  destruct (span_digits r1) as [ds t'] eqn:S.
  destruct ds as [|d ds]; intros H; inversion H; subst; auto.
  right. apply span_digits_spec in S as [-> A].
  apply closes_cons.
  assert (closes ((d :: ds) ++ t) t) as C by (apply digits_close; [discriminate | exact A]).
  unfold take_sign in Sg. destruct r as [|sg r]; [inversion Sg; subst; exact C|].
  destruct (sg =? 45); [inversion Sg; subst; now apply closes_cons|].
  destruct (sg =? 43); inversion Sg; subst; [now apply closes_cons | exact C].
Qed.

Lemma match_number_closes (s : str) (v : pyval) (t : str) :
  match_number s = Some (v, t) -> closes s t /\ hd_visible s = true.
Proof.
  unfold match_number.
  destruct (take_minus s) as [neg s1] eqn:M.
  destruct (int_digits s1) as [[ids s2]|] eqn:I; [|discriminate].
  destruct (frac_digits s2) as [fds s3] eqn:F.
  destruct (exponent s3) as [ex s4] eqn:X.
  intros H.
  assert (t = s4) as -> by (destruct fds, ex; now inversion H).
  clear H. apply int_digits_closes in I as [C1 V1].
  apply frac_digits_closes in F. apply exponent_closes in X.
  assert (closes s1 s4) as C.
  { destruct F as [->|C2]; destruct X as [->|C3]; auto.
    - now apply (closes_trans _ s2).
    - now apply (closes_trans _ s2).
    - apply (closes_trans _ s2); auto. now apply (closes_trans _ s3). }
  unfold take_minus in M. destruct s as [|c r]; [inversion M; subst; auto|].
  destruct (N.eqb_spec c 45) as [->|]; inversion M; subst; auto.
  split; [now apply closes_cons | reflexivity].
Qed.

Lemma literal_closes (s : str) (w : string) (n : nat) :
  startswith s (lit w) = true ->
  n = length (lit w) ->
  hd_visible (lit w) = true -> hd_visible (rev (lit w)) = true ->
  closes s (skipn n s) /\ hd_visible s = true.
Proof.
  intros H -> V1 V2. apply startswith_inv in H as [t ->].
  rewrite skipn_app, skipn_all, Nat.sub_diag. cbn [skipn app].
  destruct (lit w) as [|c r]; [discriminate|]. split; [|exact V1].
  destruct (exists_last (l := c :: r)) as [pre [z E]]; [discriminate|].
  rewrite E in *. rewrite rev_app_distr in V2. cbn in V2.
  exists pre, z. now rewrite <- app_assoc.
Qed.

Lemma scan_atom_closes (s : str) (v : pyval) (t : str) :
  scan_atom s = Scanned v t -> closes s t /\ hd_visible s = true.
Proof.
  unfold scan_atom.
  repeat match goal with
    | |- context [if startswith s (lit ?w) then Scanned _ (skipn ?n s) else _] =>
        let E := fresh "E" in
        destruct (startswith s (lit w)) eqn:E;
        [intros H; injection H as _ <-;
         apply (literal_closes s w n E); reflexivity|]
    end.
  destruct (match_number s) as [[v' t']|] eqn:M; intros H; inversion H; subst.
  now apply match_number_closes in M.
Qed.

(** ** Every value ends at a visible character *)

Lemma closes_here (c : char) (s t : str) :
  skip_ws s = c :: t -> visible c = true -> closes s t.
Proof.
  intros E V. apply closes_skip_ws. rewrite E. now exists [], c.
Qed.

Lemma closes_after (c : char) (s r t : str) :
  skip_ws s = c :: r -> closes (skip_ws r) t -> closes s t.
Proof.
  intros E C. apply closes_skip_ws. rewrite E.
  now apply closes_cons, closes_skip_ws.
Qed.

Lemma scan_once_step (f : nat) :
  good_object f -> good_array f -> good_once (S f).
Proof.
  intros GO GA s v t H. cbn [scan_once] in H.
  destruct s as [|c r]; [discriminate|].
  destruct (N.eqb_spec c QUOTE) as [->|_].
  { destruct (scanstring _ _ r) as [k t'|] eqn:S; inversion H; subst.
    split; [|reflexivity].
    now apply closes_cons, (scanstring_closes_visible _ _ _ _ _ S). }
  destruct (N.eqb_spec c 123) as [->|_].
  { split; [|reflexivity]. apply closes_cons.
    destruct (skip_ws r) as [|c1 r1] eqn:W.
    - apply GO in H as [C _]. apply closes_skip_ws. now rewrite W.
    - destruct (N.eqb_spec c1 125) as [->|_].
      + inversion H; subst. now apply (closes_here 125).
      + apply GO in H as [C _]. apply closes_skip_ws. now rewrite W. }
  destruct (N.eqb_spec c 91) as [->|_].
  { split; [|reflexivity]. apply closes_cons.
    destruct (skip_ws r) as [|c1 r1] eqn:W.
    - apply GA in H as [C _]. apply closes_skip_ws. now rewrite W.
    - destruct (N.eqb_spec c1 93) as [->|_].
      + inversion H; subst. now apply (closes_here 93).
      + apply GA in H as [C _]. apply closes_skip_ws. now rewrite W. }
  now apply scan_atom_closes in H.
Qed.

Lemma parse_object_step (f : nat) :
  good_once f -> good_object f -> good_object (S f).
Proof.
  intros G1 GO d s v t H. cbn [parse_object] in H.
  destruct s as [|c r]; [discriminate|].
  destruct (N.eqb_spec c QUOTE) as [->|_]; [|discriminate].
  split; [|reflexivity]. apply closes_cons.
  destruct (scanstring _ _ r) as [key t0|] eqn:S; [|discriminate].
  apply scanstring_closes_visible in S. apply (closes_trans _ t0); [exact S|].
  destruct (skip_ws t0) as [|c1 r1] eqn:W0; [discriminate|].
  destruct (N.eqb_spec c1 58) as [->|_]; [|discriminate].
  destruct (scan_once f (skip_ws r1)) as [val t1|] eqn:V; [|discriminate].
  apply G1 in V as [V _].
  apply (closes_trans _ t1); [now apply (closes_after 58 t0 r1)|].
  destruct (skip_ws t1) as [|c2 r2] eqn:W1; [discriminate|].
  destruct (N.eqb_spec c2 125) as [->|_].
  { inversion H; subst. now apply (closes_here 125). }
  destruct (N.eqb_spec c2 44) as [->|_]; [|discriminate].
  apply GO in H as [C _]. now apply (closes_after 44 t1 r2).
Qed.

Lemma parse_array_step (f : nat) :
  good_once f -> good_array f -> good_array (S f).
Proof.
  intros G1 GA acc s v t H. cbn [parse_array] in H.
  destruct (scan_once f s) as [val t1|] eqn:V; [|discriminate].
  apply G1 in V as [V Hd]. split; [|exact Hd].
  apply (closes_trans _ t1); [exact V|].
  destruct (skip_ws t1) as [|c r] eqn:W; [discriminate|].
  destruct (N.eqb_spec c 93) as [->|_].
  { inversion H; subst. now apply (closes_here 93). }
  destruct (N.eqb_spec c 44) as [->|_]; [|discriminate].
  apply GA in H as [C _]. now apply (closes_after 44 t1 r).
Qed.

Lemma scan_good (f : nat) : good_once f /\ good_object f /\ good_array f.
Proof.
  induction f as [|f [G1 [GO GA]]].
  - split; [|split]; red; intros; discriminate.
  - auto using scan_once_step, parse_object_step, parse_array_step.
Qed.

Lemma scan_once_closes (f : nat) (s : str) (v : pyval) (t : str) :
  scan_once f s = Scanned v t -> closes s t /\ hd_visible s = true.
Proof. apply scan_good. Qed.

(** ** Enough fuel

    Above the bound the result of a scan no longer depends on the fuel, so
    [loads] would return the same with any larger amount. *)

Lemma skip_ws_cons_length (s : str) (c : char) (r : str) :
  skip_ws s = c :: r -> (length r < length s)%nat.
Proof.
  intros E. pose proof (skip_ws_length s) as L. rewrite E in L.
  cbn [length] in L. lia.
Qed.

Lemma scan_once_shorter (f : nat) (s : str) (v : pyval) (t : str) :
  scan_once f s = Scanned v t -> (length t < length s)%nat.
Proof. intros H. now apply closes_length, (scan_once_closes f s v). Qed.

Lemma scanstring_shorter (s : str) begin acc k t :
  scanstring begin acc s = Scanned k t -> (length t < length s)%nat.
Proof. intros H. now apply closes_length, (scanstring_closes_visible s begin acc k). Qed.

Lemma stable_once_step (f : nat) :
  stable_object f -> stable_array f -> stable_once (S f).
Proof.
  intros SO SA s B. cbn [scan_once].
  destruct s as [|c r]; [reflexivity|]. cbn [length] in B.
  destruct (c =? QUOTE); [reflexivity|].
  pose proof (skip_ws_length r) as L.
  destruct (c =? 123).
  { destruct (skip_ws r) as [|c1 r1]; [apply SO; cbn [length]; lia|].
    destruct (c1 =? 125); [reflexivity|]. apply SO. lia. }
  destruct (c =? 91); [|reflexivity].
  destruct (skip_ws r) as [|c1 r1]; [apply SA; cbn [length]; lia|].
  destruct (c1 =? 93); [reflexivity|]. apply SA. lia.
Qed.

Lemma stable_object_step (f : nat) :
  stable_once f -> stable_object f -> stable_object (S f).
Proof.
  intros S1 SO d s B. cbn [parse_object].
  destruct s as [|c r]; [reflexivity|]. cbn [length] in B.
  destruct (c =? QUOTE); [|reflexivity].
  destruct (scanstring _ _ r) as [key t0|] eqn:S; [|reflexivity].
  apply scanstring_shorter in S.
  destruct (skip_ws t0) as [|c1 r1] eqn:W0; [reflexivity|].
  apply skip_ws_cons_length in W0.
  destruct (c1 =? 58); [|reflexivity].
  pose proof (skip_ws_length r1) as L1.
  rewrite (S1 (skip_ws r1)) by lia.
  destruct (scan_once f (skip_ws r1)) as [val t1|] eqn:V; [|reflexivity].
  apply scan_once_shorter in V.
  destruct (skip_ws t1) as [|c2 r2] eqn:W1; [reflexivity|].
  apply skip_ws_cons_length in W1.
  destruct (c2 =? 125); [reflexivity|].
  destruct (c2 =? 44); [|reflexivity].
  pose proof (skip_ws_length r2) as L2.
  apply SO. lia.
Qed.

Lemma stable_array_step (f : nat) :
  stable_once f -> stable_array f -> stable_array (S f).
Proof.
  intros S1 SA acc s B. cbn [parse_array].
  rewrite (S1 s) by lia.
  destruct (scan_once f s) as [val t1|] eqn:V; [|reflexivity].
  apply scan_once_shorter in V.
  destruct (skip_ws t1) as [|c r] eqn:W; [reflexivity|].
  apply skip_ws_cons_length in W.
  destruct (c =? 93); [reflexivity|].
  destruct (c =? 44); [|reflexivity].
  pose proof (skip_ws_length r) as L.
  apply SA. lia.
Qed.

Lemma scan_stable (f : nat) : stable_once f /\ stable_object f /\ stable_array f.
Proof.
  induction f as [|f [S1 [SO SA]]].
  - split; [|split]; red; intros; lia.
  - auto using stable_once_step, stable_object_step, stable_array_step.
Qed.

(** Any fuel from [2 * length s + 1] on gives the same scan of [s]. *)
Lemma scan_once_fuel (f : nat) (s : str) :
  (2 * length s + 1 <= f)%nat ->
  scan_once f s = scan_once (2 * length s + 1) s.
Proof.
  intros B. induction B as [|f B IH]; [reflexivity|].
  rewrite <- IH. now apply scan_stable.
Qed.

(** [loads] does not depend on the amount of fuel it hands to the scan. *)
Lemma loads_fuel (f : nat) (s : str) :
  (fuel_for s <= f)%nat ->
  scan_once f (skip_ws s) = scan_once (fuel_for s) (skip_ws s).
Proof.
  unfold fuel_for. intros B. pose proof (skip_ws_length s) as L.
  rewrite (scan_once_fuel f) by lia.
  now rewrite (scan_once_fuel (2 * length s + 1)) by lia.
Qed.

(** ** The shape of a text that [loads] accepts *)

(** A text that parses is one value between JSON whitespace, and the value
    starts and ends with a visible character. *)
Lemma loads_ok_inv (t : str) (v : pyval) :
  loads t = Ok v ->
  exists w1 mid w2,
    t = w1 ++ mid ++ w2
    /\ forallb is_ws w1 = true /\ forallb is_ws w2 = true
    /\ hd_visible mid = true /\ hd_visible (rev mid) = true
    /\ scan_once (fuel_for t) (mid ++ w2) = Scanned v w2.
Proof.
  unfold loads. destruct (startswith t [65279]); [discriminate|].
  destruct (scan_once (fuel_for t) (skip_ws t)) as [obj t1|] eqn:S; [|discriminate].
  destruct (skip_ws t1) eqn:W; [|discriminate]. intros H. inversion H; subst obj.
  destruct (skip_ws_suffix t) as [w1 [E1 A1]].
  destruct (scan_once_closes _ _ _ _ S) as [[pre [c [E2 V]]] Hd].
  exists w1, (pre ++ [c]), t1.
  rewrite <- app_assoc. cbn [app]. rewrite <- E2.
  repeat split; auto using skip_ws_nil.
  - rewrite E2 in Hd. destruct pre; exact Hd.
  - rewrite rev_app_distr. exact V.
Qed.

Lemma all_ws_space (w : str) :
  forallb is_ws w = true -> forallb isspace w = true.
Proof.
  rewrite !forallb_forall. intros H x Hx. auto using is_ws_isspace.
Qed.

Lemma visible_not_space (s : str) : hd_visible s = true -> hd_ok s = true.
Proof.
  destruct s as [|c r]; simpl; [discriminate|]. unfold visible.
  intros H. now apply andb_prop in H as [H _].
Qed.

Lemma visible_no_fence (s : str) :
  hd_visible s = true -> startswith s (lit "```") = false.
Proof.
  destruct s as [|c r]; [discriminate|]. cbn [hd_visible]. unfold visible.
  intros H. apply andb_prop in H as [_ H]. apply negb_true_iff in H.
  cbn [lit list_ascii_of_string map startswith].
  change (N_of_ascii "`") with BACKTICK.
  rewrite N.eqb_sym. now rewrite H.
Qed.

(** A text that parses strips to its value, which neither starts nor ends
    with a fence. *)
Lemma json_text_stripped (t : str) (v : pyval) :
  loads t = Ok v ->
  startswith (strip t) (lit "```") = false
  /\ endswith (strip t) (lit "```") = false.
Proof.
  intros H.
  destruct (loads_ok_inv t v H) as [w1 [mid [w2 [E [A1 [A2 [V1 [V2 _]]]]]]]].
  assert (strip t = mid) as ->.
  { rewrite E. apply strip_around; auto using all_ws_space.
    unfold trimmed. now rewrite !visible_not_space. }
  split; [now apply visible_no_fence|].
  unfold endswith. now apply (visible_no_fence (rev mid)).
Qed.

(** ** Scans do not look past the value

    What a scan returns does not depend on the text after the value, as
    long as that text cannot continue a number. *)

Lemma headp_app (P : char -> bool) (a b : str) :
  headp P a = true -> (a = [] -> headp P b = true) -> headp P (a ++ b) = true.
Proof. destruct a; simpl; auto. Qed.

Lemma headp_weaken (P Q : char -> bool) (x : str) :
  (forall c, P c = true -> Q c = true) -> headp P x = true -> headp Q x = true.
Proof. destruct x; simpl; auto. Qed.

Lemma not_number_fraction c : not_number c = true -> not_fraction c = true.
Proof.
  unfold not_number, not_fraction. intros H.
  apply andb_prop in H as [H _]. now apply andb_prop in H as [H _].
Qed.

Lemma not_fraction_digit c : not_fraction c = true -> not_digit c = true.
Proof.
  unfold not_fraction, not_digit. intros H. now apply andb_prop in H as [H _].
Qed.

Lemma span_digits_head (s ds t : str) :
  span_digits s = (ds, t) -> headp not_digit t = true.
Proof.
  revert ds t. induction s as [|c r IH]; intros ds t H; cbn [span_digits] in H.
  - now inversion H.
  - destruct (is_digit c) eqn:D.
    + destruct (span_digits r) as [ds' t'] eqn:E. inversion H; subst. eauto.
    + inversion H; subst. simpl. unfold not_digit. now rewrite D.
Qed.

Lemma span_digits_app (ds x : str) :
  forallb is_digit ds = true -> headp not_digit x = true ->
  span_digits (ds ++ x) = (ds, x).
Proof.
  intros A Hx. induction ds as [|c r IH]; cbn [app span_digits].
  - destruct x as [|c r]; [reflexivity|]. simpl in Hx. unfold not_digit in Hx.
    apply negb_true_iff in Hx. cbn [span_digits]. now rewrite Hx.
  - simpl in A. apply andb_prop in A as [D A]. now rewrite D, IH.
Qed.

(** The digits read by each part of [match_number], and what that part
    returns with another text after them. *)
Lemma int_digits_cut (s ids t : str) :
  int_digits s = Some (ids, t) ->
  s = ids ++ t
  /\ headp is_digit ids = true /\ ids <> []
  /\ forall x, headp not_digit x = true -> int_digits (ids ++ x) = Some (ids, x).
Proof.
  unfold int_digits. destruct s as [|c r]; [discriminate|].
  destruct ((49 <=? c) && (c <=? 57)) eqn:R.
  - destruct (span_digits r) as [ds t'] eqn:E. intros H. inversion H; subst.
    pose proof (span_digits_spec _ _ _ E) as [-> A].
    assert (is_digit c = true) as D.
    { unfold is_digit. apply andb_prop in R as [L U].
      apply N.leb_le in L. rewrite U, andb_true_r. apply N.leb_le. lia. }
    repeat split; auto; [discriminate|].
    intros x Hx. cbn [app]. rewrite R. now rewrite span_digits_app.
  - destruct (N.eqb_spec c 48) as [->|]; [|discriminate].
    intros H. inversion H; subst. repeat split; auto. discriminate.
Qed.

Lemma frac_digits_none (x : str) :
  headp not_fraction x = true -> frac_digits x = ([], x).
Proof.
  unfold frac_digits. destruct x as [|dot [|d r]]; auto.
  simpl. unfold not_fraction. intros H. apply andb_prop in H as [_ H].
  apply negb_true_iff in H. now rewrite H.
Qed.

Lemma frac_digits_cut (s fds t : str) :
  frac_digits s = (fds, t) ->
  exists part,
    s = part ++ t
    /\ headp (fun c => c =? 46) part = true
    /\ forall x, headp not_fraction x = true ->
                 frac_digits (part ++ x) = (fds, x).
Proof.
  unfold frac_digits.
  destruct s as [|dot [|d r]];
    try (intros H; inversion H; subst; exists []; repeat split; auto;
         intros x Hx; now apply frac_digits_none).
  destruct ((dot =? 46) && is_digit d) eqn:E.
  - destruct (span_digits r) as [ds t'] eqn:S. intros H. inversion H; subst.
    apply span_digits_spec in S as [-> A].
    apply andb_prop in E as [Dot D].
    exists (dot :: d :: ds). repeat split; auto.
    intros x Hx. cbn [app]. rewrite Dot, D. cbn [andb].
    rewrite span_digits_app; auto.
    now apply (headp_weaken not_fraction), Hx; apply not_fraction_digit.
  - intros H. inversion H; subst. exists []. repeat split; auto.
    intros x Hx. now apply frac_digits_none.
Qed.

Lemma exponent_none (x : str) :
  stops x = true -> exponent x = (None, x).
Proof.
  unfold exponent, stops. destruct x as [|e r]; auto.
  simpl. unfold not_number. intros H.
  apply andb_prop in H as [H E2]. apply andb_prop in H as [_ E1].
  apply negb_true_iff in E1, E2. now rewrite E1, E2.
Qed.

Lemma exponent_cut (s : str) ex (t : str) :
  exponent s = (ex, t) ->
  exists part,
    s = part ++ t
    /\ headp (fun c => (c =? 101) || (c =? 69)) part = true
    /\ forall x, stops x = true -> exponent (part ++ x) = (ex, x).
Proof.
  assert (forall w, exponent s = (None, s) -> w = s ->
            exists part, s = part ++ w /\
              headp (fun c => (c =? 101) || (c =? 69)) part = true /\
              forall x, stops x = true -> exponent (part ++ x) = (None, x)) as none.
  { intros w _ ->. exists []. repeat split; auto. intros x. apply exponent_none. }
  unfold exponent in *. destruct s as [|e r]; [intros H; inversion H; subst; auto|].
  destruct ((e =? 101) || (e =? 69)) eqn:E; [|intros H; inversion H; subst; auto].
  destruct (take_sign r) as [eneg r1] eqn:Sg.
  destruct (span_digits r1) as [ds t'] eqn:S.
  destruct ds as [|d ds]; intros H; inversion H; subst; auto.
  clear none H. apply span_digits_spec in S as [-> A].
  assert (exists sg, r = sg ++ (d :: ds) ++ t /\
            forall y, headp is_digit y = true -> take_sign (sg ++ y) = (eneg, y))
    as [sg [-> Hsg]].
  { unfold take_sign in Sg. destruct r as [|c r].
    - inversion Sg.
    - destruct (c =? 45) eqn:M.
      + inversion Sg; subst. exists [c]. split; auto.
        intros y _. cbn. now rewrite M.
      + destruct (c =? 43) eqn:P.
        * inversion Sg; subst. exists [c]. split; auto.
          intros y _. cbn. now rewrite M, P.
        * injection Sg as <- -> ->. exists []. split; [reflexivity|].
          intros y Hy. destruct y as [|c' y]; auto. cbn in *.
          destruct (N.eqb_spec c' 45) as [->|]; [discriminate|].
          destruct (N.eqb_spec c' 43) as [->|]; [discriminate|]. reflexivity. }
  exists (e :: sg ++ d :: ds). repeat split.
  - cbn [app]. now rewrite <- !app_assoc.
  - exact E.
  - intros x Hx. cbn [app]. rewrite E. rewrite <- app_assoc.
    rewrite Hsg by (simpl in A; now apply andb_prop in A as [A _]).
    change (d :: ds ++ x) with ((d :: ds) ++ x).
    rewrite span_digits_app; auto.
    apply (headp_weaken not_number); auto.
    intros c Hc. now apply not_fraction_digit, not_number_fraction.
Qed.

Lemma take_minus_cut (s : str) (neg : bool) (s1 : str) :
  take_minus s = (neg, s1) ->
  exists sign,
    s = sign ++ s1
    /\ (sign = [] \/ sign = [45])
    /\ forall y, headp is_digit y = true ->
                 take_minus (sign ++ y) = (neg, y).
Proof.
  unfold take_minus. destruct s as [|c r].
  - intros H. inversion H; subst. exists []. repeat split; auto.
    intros [|c y] Hy; auto. cbn in *.
    destruct (N.eqb_spec c 45) as [->|]; [discriminate | reflexivity].
  - destruct (N.eqb_spec c 45) as [->|Hc]; intros H; inversion H; subst.
    + exists [45]. repeat split; auto.
    + exists []. repeat split; auto.
      intros [|c' y] Hy; auto. cbn in *.
      destruct (N.eqb_spec c' 45) as [->|]; [discriminate | reflexivity].
Qed.

Lemma dot_not_digit (c : char) : (c =? 46) = true -> not_digit c = true.
Proof. intros H. apply N.eqb_eq in H. now subst c. Qed.

Lemma e_not_fraction (c : char) :
  (c =? 101) || (c =? 69) = true -> not_fraction c = true.
Proof.
  intros H. apply orb_prop in H as [H|H]; apply N.eqb_eq in H; now subst c.
Qed.

Lemma match_number_cut (s : str) (v : pyval) (t : str) :
  match_number s = Some (v, t) ->
  exists mid,
    s = mid ++ t
    /\ number_head mid = true
    /\ forall x, stops x = true -> match_number (mid ++ x) = Some (v, x).
Proof.
  unfold match_number.
  destruct (take_minus s) as [neg s1] eqn:M.
  destruct (int_digits s1) as [[ids s2]|] eqn:I; [|discriminate].
  destruct (frac_digits s2) as [fds s3] eqn:F.
  destruct (exponent s3) as [ex s4] eqn:X.
  intros H.
  assert (t = s4) as -> by (destruct fds, ex; now inversion H).
  apply take_minus_cut in M as [sign [-> [Hsign Msign]]].
  apply int_digits_cut in I as [-> [Hd [Hne Iids]]].
  apply frac_digits_cut in F as [pf [-> [Hpf Fpf]]].
  apply exponent_cut in X as [pe [-> [Hpe Xpe]]].
  exists (sign ++ ids ++ pf ++ pe). repeat split.
  - now rewrite <- !app_assoc.
  - destruct ids as [|d ids]; [congruence|]. cbn in Hd.
    destruct Hsign as [->| ->]; cbn; rewrite Hd; reflexivity.
  - intros x Hx. rewrite <- !app_assoc.
    assert (headp not_fraction (pe ++ x) = true) as Hfx.
    { apply headp_app.
      - apply (headp_weaken _ _ _ e_not_fraction Hpe).
      - intros _. apply (headp_weaken _ _ _ not_number_fraction Hx). }
    assert (headp not_digit (pf ++ pe ++ x) = true) as Hdx.
    { apply headp_app.
      - apply (headp_weaken _ _ _ dot_not_digit Hpf).
      - intros _. apply (headp_weaken _ _ _ not_fraction_digit Hfx). }
    rewrite Msign by (destruct ids; [congruence | exact Hd]).
    rewrite Iids by exact Hdx.
    rewrite Fpf by exact Hfx.
    rewrite Xpe by exact Hx.
    destruct fds, ex; inversion H; reflexivity.
Qed.

(** A number is none of the named constants. *)
Lemma number_head_atom (mid x : str) :
  number_head mid = true ->
  scan_atom (mid ++ x) =
    match match_number (mid ++ x) with
    | Some (v, t) => Scanned v t
    | None => Failed ExpectingValue (length (mid ++ x))
    end.
Proof.
  assert (forall c, is_digit c = true ->
            c = 48 \/ c = 49 \/ c = 50 \/ c = 51 \/ c = 52 \/ c = 53
            \/ c = 54 \/ c = 55 \/ c = 56 \/ c = 57) as digits.
  { intros c H. unfold is_digit in H. apply andb_prop in H as [L U].
    apply N.leb_le in L. apply N.leb_le in U. lia. }
  destruct mid as [|c r]; [discriminate|]. cbn [number_head].
  intros H. apply orb_prop in H as [H|H].
  - apply digits in H.
    repeat (destruct H as [->|H]; [reflexivity|]). now subst c.
  - apply andb_prop in H as [C D]. apply N.eqb_eq in C. subst c.
    destruct r as [|d r]; [discriminate|]. apply digits in D.
    repeat (destruct D as [->|D]; [reflexivity|]). now subst d.
Qed.

Lemma literal_cut (s : str) (w : string) (n : nat) :
  startswith s (lit w) = true ->
  n = length (lit w) ->
  s = lit w ++ skipn n s.
Proof.
  intros H ->. apply startswith_inv in H as [t ->].
  now rewrite skipn_app, skipn_all, Nat.sub_diag.
Qed.

Lemma scan_atom_cut (s : str) (v : pyval) (t : str) :
  scan_atom s = Scanned v t ->
  exists mid,
    s = mid ++ t
    /\ forall x, stops x = true -> scan_atom (mid ++ x) = Scanned v x.
Proof.
  unfold scan_atom at 1.
  repeat match goal with
    | |- context [if startswith s (lit ?w) then Scanned _ (skipn ?n s) else _] =>
        let E := fresh "E" in
        destruct (startswith s (lit w)) eqn:E;
        [intros H; injection H as <- <-;
         exists (lit w); split;
         [apply (literal_cut s w n E); reflexivity | intros x _; reflexivity]|]
    end.
  destruct (match_number s) as [[v' t']|] eqn:M; intros H; inversion H; subst.
  apply match_number_cut in M as [mid [-> [Hd Hcut]]].
  exists mid. split; [reflexivity|].
  intros x Hx. rewrite number_head_atom by assumption. now rewrite Hcut.
Qed.

(** ** Strings: the scan stops at the closing quote *)

Lemma hex4_not_quote (a b c d : char) (x : N) :
  hex4 a b c d = Some x ->
  a <> QUOTE /\ b <> QUOTE /\ c <> QUOTE /\ d <> QUOTE.
Proof.
  unfold hex4. intros H.
  repeat split; intros ->; cbn in H;
    repeat match type of H with
      | context [match hex_digit ?y with _ => _ end] => destruct (hex_digit y)
      end; discriminate.
Qed.

(** One step of [scanstring]. *)
Lemma scanstring_eq begin acc c r :
  scanstring begin acc (c :: r) =
  ltac:(let body := eval cbn [scanstring] in (scanstring begin acc (c :: r)) in
        exact body).
Proof. reflexivity. Qed.

Ltac lead_of l x :=
  match l with
  | x => constr:(@nil char)
  | ?a :: ?r => let p := lead_of r x in constr:(a :: p)
  end.

(** Splits [Ex : a :: ... = pre ++ QUOTE :: t] along [pre]. *)
Ltac split_along Ex :=
  repeat match type of Ex with
    | [] = ?p ++ _ :: _ => destruct p; discriminate Ex
    | _ :: _ = ?p ++ _ :: _ =>
        is_var p; destruct p; cbn [app] in Ex;
        injection Ex as ? Ex; subst
    | ?x = _ ++ _ :: _ => is_var x; subst x
    end.

Lemma scanstring_cut (n : nat) :
  forall s begin acc k t,
    (length s < n)%nat ->
    scanstring begin acc s = Scanned k t ->
    exists pre,
      s = pre ++ QUOTE :: t
      /\ forall begin' t',
           scanstring begin' acc (pre ++ QUOTE :: t') = Scanned k t'.
Proof.
  induction n as [|n IH]; intros s begin acc k t Hn H; [lia|].
  destruct s as [|c r]; cbn [scanstring] in H; [discriminate|].
  cbn [length] in Hn.
  repeat match type of H with
    | Failed _ _ = Scanned _ _ => discriminate H
    | context [if ?b then _ else _] => destruct b eqn:?
    | context [match ?x with _ => _ end] =>
        first [is_var x; destruct x | destruct x eqn:?]
    end.
  all: try match type of H with
    | Scanned _ _ = Scanned _ _ =>
        inversion H; subst; clear H;
        match goal with
        | E : (?c =? QUOTE) = true |- _ => apply N.eqb_eq in E; subst c
        end;
        exists []; split; [reflexivity|]; intros; cbn; reflexivity
    end.
  all: pose proof H as H0;
    apply IH in H as [pre' [Ex Hcut]]; [|cbn [length] in *; lia].
  all: split_along Ex.
  all: try match goal with
    | E : (QUOTE =? BACKSLASH) && _ = true |- _ => discriminate E
    | E : (_ =? BACKSLASH) && (QUOTE =? 117) = true |- _ =>
        change (QUOTE =? 117) with false in E; rewrite andb_false_r in E;
        discriminate E
    | E : hex4 _ _ _ _ = Some _ |- _ =>
        apply hex4_not_quote in E; intuition congruence
    end.
  all: try solve [
    match goal with
    | E : (_ =? BACKSLASH) && (_ =? 117) = true |- _ =>
        apply andb_prop in E as [E1 E2];
        apply N.eqb_eq in E1; apply N.eqb_eq in E2; subst;
        cbn in H0; discriminate H0
    end ].
  all: match goal with
    | H0 : scanstring _ _ ?x = _,
      Hcut : forall b t, scanstring b _ (?pre ++ _) = _
      |- exists p, ?l = _ /\ _ =>
        let ld := lead_of l x in
        exists (ld ++ pre); split; [cbn [app]; reflexivity|]
    end.
  all: intros begin' t'; cbn [app]; rewrite scanstring_eq; cbn [app];
    repeat match goal with
      | E : ?b = _ |- context [if ?b then _ else _] => rewrite E
      | E : ?x = _ |- context [match ?x with _ => _ end] => rewrite E
      | |- context [(QUOTE =? BACKSLASH) && _] =>
          change (QUOTE =? BACKSLASH) with false; cbn [andb]
      | |- context [match ?l with _ => _ end] =>
          is_var l; destruct l; cbn [app]
      end;
    try apply Hcut.
Qed.

Lemma skip_ws_spaces (w x : str) :
  forallb is_ws w = true -> skip_ws (w ++ x) = skip_ws x.
Proof.
  induction w as [|c w IH]; simpl; auto.
  intros H. apply andb_prop in H as [Hc Hw]. rewrite Hc. auto.
Qed.

Lemma visible_not_ws (c : char) : visible c = true -> is_ws c = false.
Proof.
  unfold visible. intros H. apply andb_prop in H as [H _].
  destruct (is_ws c) eqn:W; auto.
  apply is_ws_isspace in W. now rewrite W in H.
Qed.

Lemma skip_ws_at (c : char) (x : str) :
  visible c = true -> skip_ws (c :: x) = c :: x.
Proof. intros H. cbn [skip_ws]. now rewrite visible_not_ws. Qed.

Lemma skip_ws_past (w m x : str) :
  forallb is_ws w = true -> hd_visible m = true ->
  skip_ws (w ++ m ++ x) = m ++ x.
Proof.
  intros W V. rewrite skip_ws_spaces by assumption.
  destruct m as [|c m]; [discriminate|]. now apply skip_ws_at.
Qed.

Lemma skip_ws_split (s : str) (c : char) (r : str) :
  skip_ws s = c :: r ->
  exists w, s = w ++ c :: r /\ forallb is_ws w = true.
Proof.
  intros E. destruct (skip_ws_suffix s) as [w [Hw A]].
  exists w. now rewrite <- E.
Qed.

Lemma ws_not_number (c : char) : is_ws c = true -> not_number c = true.
Proof.
  unfold is_ws. intros H.
  repeat (apply orb_prop in H as [H|H]); apply N.eqb_eq in H; now subst c.
Qed.

Lemma stops_after_ws (w : str) (c : char) (x : str) :
  forallb is_ws w = true -> not_number c = true -> stops (w ++ c :: x) = true.
Proof.
  intros W C. destruct w as [|a w]; [exact C|].
  simpl in W. apply andb_prop in W as [W _]. now apply ws_not_number.
Qed.

Lemma mid_visible (s mid t : str) :
  s = mid ++ t -> closes s t -> hd_visible s = true -> hd_visible mid = true.
Proof.
  intros -> C V. apply closes_length in C. rewrite length_app in C.
  destruct mid as [|c m]; [simpl in C; lia | exact V].
Qed.

Ltac assoc := repeat (progress (cbn [app]; rewrite <- ?app_assoc)).

Lemma cut_array_step (f : nat) :
  cut_once f -> cut_array f -> cut_array (S f).
Proof.
  intros C1 CA acc s v t H.
  pose proof (proj2 (proj2 (scan_good (S f))) _ _ _ _ H) as [Hc Hv].
  cbn [parse_array] in H.
  destruct (scan_once f s) as [val t1|] eqn:V; [|discriminate].
  apply C1 in V as [m1 [-> [V1 Hm1]]].
  destruct (skip_ws t1) as [|c r] eqn:W; [discriminate|].
  apply skip_ws_split in W as [w [-> Ww]].
  destruct (N.eqb_spec c 93) as [->|N93].
  { inversion H; subst. exists (m1 ++ w ++ [93]). repeat split.
    - now assoc.
    - destruct m1; [discriminate | exact V1].
    - intros x Hx. assoc. cbn [parse_array].
      rewrite Hm1 by (now apply stops_after_ws).
      rewrite skip_ws_spaces by assumption. now rewrite skip_ws_at. }
  destruct (N.eqb_spec c 44) as [->|]; [|discriminate].
  pose proof (proj2 (proj2 (scan_good f)) _ _ _ _ H) as [Hc2 Hv2].
  apply CA in H as [m2 [E2 [V2 Hm2]]].
  destruct (skip_ws_suffix r) as [w2 [Er W2]]. rewrite E2 in Er. subst r.
  exists (m1 ++ w ++ 44 :: w2 ++ m2). repeat split.
  - now assoc.
  - destruct m1; [discriminate | exact V1].
  - intros x Hx. assoc. cbn [parse_array].
    rewrite Hm1 by (now apply stops_after_ws).
    rewrite skip_ws_spaces by assumption. rewrite skip_ws_at by reflexivity.
    cbn. rewrite skip_ws_past by assumption. now apply Hm2.
Qed.

Lemma cut_object_step (f : nat) :
  cut_once f -> cut_object f -> cut_object (S f).
Proof.
  intros C1 CO d s v t H. cbn [parse_object] in H.
  destruct s as [|c r]; [discriminate|].
  destruct (N.eqb_spec c QUOTE) as [->|_]; [|discriminate].
  destruct (scanstring _ _ r) as [key t0|] eqn:Sc; [|discriminate].
  apply (scanstring_cut (S (length r))) in Sc as [pre [-> Hpre]]; [|lia].
  destruct (skip_ws t0) as [|c1 r1] eqn:W0; [discriminate|].
  apply skip_ws_split in W0 as [w0 [-> Ww0]].
  destruct (N.eqb_spec c1 58) as [->|_]; [|discriminate].
  destruct (scan_once f (skip_ws r1)) as [val t1|] eqn:V; [|discriminate].
  apply C1 in V as [m1 [E1 [V1 Hm1]]].
  destruct (skip_ws_suffix r1) as [w1 [Er1 Ww1]]. rewrite E1 in Er1. subst r1.
  clear E1.
  destruct (skip_ws t1) as [|c2 r2] eqn:W1; [discriminate|].
  apply skip_ws_split in W1 as [w2 [-> Ww2]].
  destruct (N.eqb_spec c2 125) as [->|N125].
  { inversion H; subst.
    exists (QUOTE :: pre ++ QUOTE :: w0 ++ 58 :: w1 ++ m1 ++ w2 ++ [125]).
    repeat split.
    - now assoc.
    - intros x Hx. assoc. cbn [parse_object]. rewrite N.eqb_refl.
      rewrite Hpre.
      rewrite skip_ws_spaces by assumption. rewrite skip_ws_at by reflexivity.
      rewrite N.eqb_refl. rewrite skip_ws_past by assumption.
      rewrite Hm1 by (now apply stops_after_ws).
      rewrite skip_ws_spaces by assumption. now rewrite skip_ws_at. }
  destruct (N.eqb_spec c2 44) as [->|]; [|discriminate].
  pose proof (proj1 (proj2 (scan_good f)) _ _ _ _ H) as [Hc2 Hv2].
  apply CO in H as [m2 [E2 [V2 Hm2]]].
  destruct (skip_ws_suffix r2) as [w3 [Er W3]]. rewrite E2 in Er. subst r2.
  exists (QUOTE :: pre ++ QUOTE :: w0 ++ 58 :: w1 ++ m1 ++ w2 ++ 44 :: w3 ++ m2).
  repeat split.
  - now assoc.
  - intros x Hx. assoc. cbn [parse_object]. rewrite N.eqb_refl.
    rewrite Hpre.
    rewrite skip_ws_spaces by assumption. rewrite skip_ws_at by reflexivity.
    rewrite N.eqb_refl. rewrite skip_ws_past by assumption.
    rewrite Hm1 by (now apply stops_after_ws).
    rewrite skip_ws_spaces by assumption. rewrite skip_ws_at by reflexivity.
    cbn. rewrite skip_ws_past by assumption. now apply Hm2.
Qed.

(** After [{] or [[]: the closing bracket, or the members. *)
Lemma cut_bracket (close : char) (empty : pyval) (run : str -> scan pyval)
    (r : str) (v : pyval) (t : str) :
  visible close = true ->
  (forall s v t, run s = Scanned v t -> cuts run s v t) ->
  match skip_ws r with
  | c1 :: r1 => if c1 =? close then Scanned empty r1 else run (c1 :: r1)
  | [] => run []
  end = Scanned v t ->
  exists mid,
    r = mid ++ t
    /\ forall x, stops x = true ->
         match skip_ws (mid ++ x) with
         | c1 :: r1 => if c1 =? close then Scanned empty r1 else run (c1 :: r1)
         | [] => run []
         end = Scanned v x.
Proof.
  intros Vc C H. destruct (skip_ws_suffix r) as [w [Er Ww]].
  destruct (skip_ws r) as [|c1 r1] eqn:W.
  - apply C in H as [m [E [V _]]]. destruct m; [discriminate V | discriminate E].
  - destruct (N.eqb_spec c1 close) as [->|Hne].
    + inversion H; subst. exists (w ++ [close]). split; [now assoc|].
      intros x Hx. assoc. rewrite skip_ws_spaces by assumption.
      rewrite skip_ws_at by assumption. now rewrite N.eqb_refl.
    + apply C in H as [m [E [V Hm]]]. rewrite E in Er. subst r.
      exists (w ++ m). split; [now assoc|].
      intros x Hx. assoc. rewrite skip_ws_past by assumption.
      destruct m as [|a m]; [discriminate|].
      cbn [app] in *. injection E as -> _.
      apply N.eqb_neq in Hne. rewrite Hne. now apply Hm.
Qed.

Lemma cut_once_step (f : nat) :
  cut_object f -> cut_array f -> cut_once (S f).
Proof.
  intros CO CA s v t H.
  pose proof (scan_once_closes _ _ _ _ H) as [Hc Hv].
  cbn [scan_once] in H.
  destruct s as [|c r]; [discriminate|].
  assert (forall mid, c :: r = mid ++ t -> hd_visible mid = true) as Vmid.
  { intros mid E. now apply (mid_visible (c :: r) mid t). }
  destruct (c =? QUOTE) eqn:Q.
  { destruct (scanstring _ _ r) as [k t'|] eqn:Sc; inversion H; subst.
    apply (scanstring_cut (S (length r))) in Sc as [pre [-> Hpre]]; [|lia].
    exists (c :: pre ++ [QUOTE]). split; [|split].
    - now assoc.
    - exact Hv.
    - intros x Hx. assoc. cbn [scan_once]. now rewrite Q, Hpre. }
  destruct (c =? 123) eqn:B.
  { apply (cut_bracket 125 (PDict []) (parse_object f [])) in H
      as [mid [-> Hmid]]; [|reflexivity|apply CO].
    exists (c :: mid). split; [|split].
    - reflexivity.
    - exact Hv.
    - intros x Hx. cbn [app scan_once]. rewrite Q, B. now apply Hmid. }
  destruct (c =? 91) eqn:A.
  { apply (cut_bracket 93 (PList []) (parse_array f [])) in H
      as [mid [-> Hmid]]; [|reflexivity|apply CA].
    exists (c :: mid). split; [|split].
    - reflexivity.
    - exact Hv.
    - intros x Hx. cbn [app scan_once]. rewrite Q, B, A. now apply Hmid. }
  apply scan_atom_cut in H as [mid [E Hmid]].
  pose proof (Vmid mid E) as V.
  exists mid. split; [|split]; auto.
  intros x Hx.
  destruct mid as [|a m]; [discriminate|]. injection E as <- _.
  cbn [app scan_once]. rewrite Q, B, A. now apply Hmid.
Qed.

Lemma scan_cut (f : nat) : cut_once f /\ cut_object f /\ cut_array f.
Proof.
  induction f as [|f [C1 [CO CA]]].
  - split; [|split]; red; intros; discriminate.
  - auto using cut_once_step, cut_object_step, cut_array_step.
Qed.

(** ** Trimming a text that parses *)

Lemma scan_once_bom (f : nat) (x : str) (v : pyval) (t : str) :
  scan_once f (65279 :: x) <> Scanned v t.
Proof. destruct f; cbn; discriminate. Qed.

(** [loads] accepts the stripped text of every text it accepts, with the
    same value. *)
Lemma loads_strip (t : str) (v : pyval) :
  loads t = Ok v -> loads (strip t) = Ok v.
Proof.
  intros H.
  destruct (loads_ok_inv t v H) as [w1 [mid [w2 [E [A1 [A2 [V1 [V2 Sc]]]]]]]].
  assert (strip t = mid) as ->.
  { rewrite E. apply strip_around; auto using all_ws_space.
    unfold trimmed. now rewrite !visible_not_space. }
  assert (length mid <= length t)%nat as L.
  { rewrite E, !length_app. lia. }
  apply (proj1 (scan_cut _)) in Sc as [mid' [E' [_ Hcut]]].
  apply app_inv_tail in E'. subst mid'.
  specialize (Hcut [] eq_refl). rewrite app_nil_r in Hcut.
  unfold loads.
  destruct mid as [|c m]; [discriminate|].
  destruct (startswith (c :: m) [65279]) eqn:B.
  { cbn [startswith] in B. rewrite andb_true_r in B.
    apply N.eqb_eq in B. subst c.
    now apply scan_once_bom in Hcut. }
  rewrite skip_ws_at by exact V1.
  unfold fuel_for in *. rewrite scan_once_fuel in Hcut by lia.
  now rewrite Hcut.
Qed.

(* ===================================================================== *)
(** * The handler *)
(* ===================================================================== *)

Lemma bind_ok {A B} (m : result A) (k : A -> result B) (b : B) :
  bind m k = Ok b -> exists a, m = Ok a /\ k a = Ok b.
Proof. destruct m as [a|e]; simpl; [eauto | discriminate]. Qed.

Lemma field_text_get (data : pyval) (k : string) (t : str) :
  field_text data k = Some t ->
  exists v, py_get data k PNone = Ok v /\ py_strip (py_or v (PStr [])) = Ok (strip t).
Proof.
  unfold field_text, py_get, py_or. destruct data; try discriminate.
  destruct (dict_lookup entries (lit k)) as [v|].
  - intros H. exists v. split; [reflexivity|].
    destruct (truthy v) eqn:T.
    + destruct v; try discriminate. now inversion H.
    + now inversion H.
  - intros H. inversion H. exists PNone. auto.
Qed.

(** Lines 131-132 on a request whose two fields hold text. *)
Lemma read_fields_text environ data t k :
  field_text data "policy_text" = Some t ->
  field_text data "api_key" = Some k ->
  read_fields environ data = Ok (strip t, api_key_used environ k).
Proof.
  intros Ht Hk. unfold read_fields, api_key_used.
  destruct (field_text_get _ _ _ Ht) as [v [Hv Hs]].
  destruct (field_text_get _ _ _ Hk) as [w [Hw Hs']].
  rewrite Hv. cbn [bind]. rewrite Hs. cbn [bind].
  rewrite Hw. cbn [bind]. rewrite Hs'. reflexivity.
Qed.

(** A request that passes validation reaches the [try] statement. *)
Lemma process_accepted environ create data t k :
  field_text data "policy_text" = Some t ->
  field_text data "api_key" = Some k ->
  is_empty (strip t) = false ->
  is_empty (api_key_used environ k) = false ->
  process environ create data =
    (match try_body create (request_args (api_key_used environ k) (strip t)) with
     | Ok policies => Json 200 (jsonify_policies policies)
     | Raise e => on_exception e
     end, [request_args (api_key_used environ k) (strip t)]).
Proof.
  intros Ht Hk Et Ek. unfold process.
  rewrite (read_fields_text environ data t k Ht Hk), Ek, Et. reflexivity.
Qed.


(** ** Blank policy text *)

(** C3. For every request whose policy_text is empty or whitespace-only
    (absent and falsy fields included), with an API key available from the
    request or from the environment, the handler answers with the client
    error 400 [No policy text provided.] and makes no call to the external
    API. *)
Theorem blank_policy_text_is_rejected_before_any_call
    environ create data t k
    (Ht : field_text data "policy_text" = Some t)
    (Hk : field_text data "api_key" = Some k)
    (Hblank : forallb isspace t = true)
    (Hkey : is_empty (api_key_used environ k) = false) :
  process environ create data =
    (Json 400 (jsonify_error (lit "No policy text provided.")), []).
Proof.
  unfold process. rewrite (read_fields_text environ data t k Ht Hk), Hkey.
  apply strip_blank in Hblank. rewrite Hblank. reflexivity.
Qed.

Lemma blank_policy_text_is_rejected_witness :
  process [] (stub (lit "{}")) (request_body (lit "  ") (lit "sk-key")) =
    (Json 400 (jsonify_error (lit "No policy text provided.")), []).
Proof.
  apply (blank_policy_text_is_rejected_before_any_call
           [] (stub (lit "{}")) (request_body (lit "  ") (lit "sk-key"))
           (lit "  ") (lit "sk-key")); reflexivity.
Defined.

(** C2 (as amended). For a request whose policy_text is blank while an API
    key is available, the handler does not answer with an empty policies
    array: the response is the error body [No policy text provided.] with
    status 400. *)
Theorem blank_policy_text_gets_error_not_empty_policies
    environ create data t k
    (Ht : field_text data "policy_text" = Some t)
    (Hk : field_text data "api_key" = Some k)
    (Hblank : strip t = [])
    (Hkey : is_empty (api_key_used environ k) = false) :
  fst (process environ create data) =
    Json 400 (jsonify_error (lit "No policy text provided."))
  /\ fst (process environ create data) <> Json 200 (jsonify_policies (PList [])).
Proof.
  assert (fst (process environ create data) =
          Json 400 (jsonify_error (lit "No policy text provided."))) as E.
  { unfold process. rewrite (read_fields_text environ data t k Ht Hk), Hkey.
    rewrite Hblank. reflexivity. }
  split; [exact E | rewrite E; discriminate].
Qed.

Lemma blank_policy_text_gets_error_witness :
  fst (process [] (stub (lit "{}")) (request_body [] (lit "sk-key"))) =
    Json 400 (jsonify_error (lit "No policy text provided."))
  /\ fst (process [] (stub (lit "{}")) (request_body [] (lit "sk-key")))
     <> Json 200 (jsonify_policies (PList [])).
Proof.
  apply (blank_policy_text_gets_error_not_empty_policies
           [] (stub (lit "{}")) (request_body [] (lit "sk-key"))
           [] (lit "sk-key")); reflexivity.
Defined.

(** C2 as stated fails: with an empty policy_text and a key in the request
    the response is not the success body with an empty policies array. *)
Lemma blank_policy_text_empty_policies_counterexample :
  fst (process [] (stub (lit "{}")) (request_body [] (lit "sk-key")))
  <> Json 200 (jsonify_policies (PList [])).
Proof. vm_compute. discriminate. Qed.

(** ** The API key *)



(** ** The call to the external API *)

(** The literal [0.2] denotes the binary64 nearest to two tenths. *)
Lemma temperature_literal : TEMPERATURE = Json.float_of_decimal false 2 (-1).
Proof. reflexivity. Qed.



(** ** Replies that cannot be read *)






(** ** The policies list *)



Lemma log_atom_printable (p : pyval) :
  log_atom p = Ok tt <-> printable p = true.
Proof.
  unfold log_atom, printable, py_get.
  destruct p; cbn [bind]; try (split; discriminate).
  destruct (dict_lookup entries (lit "display_text")) as [v|]; cbn [bind].
  - destruct v; cbn; split; congruence.
  - cbn. tauto.
Qed.

Lemma log_atoms_printable (ps : list pyval) :
  log_atoms ps = Ok tt <-> forallb printable ps = true.
Proof.
  induction ps as [|p r IH]; cbn [log_atoms forallb]; [tauto|].
  destruct (log_atom p) as [[]|e] eqn:E; cbn [bind].
  - apply log_atom_printable in E. rewrite E. exact IH.
  - destruct (printable p) eqn:P; [|split; discriminate].
    apply log_atom_printable in P. congruence.
Qed.



Lemma log_policies_printable (items : list pyval) :
  forallb printable items = true ->
  log_policies (PList items) = Ok (PList items).
Proof.
  intros H. unfold log_policies. cbn [py_len bind py_iter].
  apply log_atoms_printable in H. now rewrite H.
Qed.

(** ** The shape of the response *)




(** ** Atoms are returned as they are, when the log can print them *)

(** An array of printable atoms is returned unchanged. *)
Lemma printable_policies_pass_through
    environ create data t k text rest cleaned d items
    (Ht : field_text data "policy_text" = Some t)
    (Hk : field_text data "api_key" = Some k)
    (Et : is_empty (strip t) = false)
    (Ek : is_empty (api_key_used environ k) = false)
    (Hreply : create (request_args (api_key_used environ k) (strip t)) =
              Ok (TextBlock text :: rest))
    (Hclean : strip_fences text = Ok cleaned)
    (Hparsed : Json.loads cleaned = Ok (PDict d))
    (Hkey : dict_lookup d (lit "policies") = Some (PList items))
    (Hprint : forallb printable items = true) :
  fst (process environ create data) = Json 200 (jsonify_policies (PList items)).
Proof.
  rewrite (process_accepted environ create data t k Ht Hk Et Ek). cbn [fst].
  unfold try_body. rewrite Hreply. cbn [bind first_text].
  rewrite Hclean. cbn [bind]. rewrite Hparsed. cbn [bind select_policies py_get].
  rewrite Hkey. cbn [bind].
  now rewrite (log_policies_printable items Hprint).
Qed.

(** C9, at the failing input: the reply is an object whose [policies] array
    holds one atom with a null [display_text].  The array is not returned:
    slicing [None] in the logging loop raises, and the handler answers with
    status 500. *)
Lemma null_display_text_is_not_passed_through :
  Json.loads reply_null_display_text =
    Ok (PDict [(lit "policies",
                PList [PDict [(lit "display_text", PNone);
                              (lit "category", PStr (lit "others"))]])])
  /\ fst (process [] (stub reply_null_display_text)
            (request_body (lit "No pets.") (lit "sk-key"))) =
     Json 500 (jsonify_error (lit "'NoneType' object is not subscriptable")).
Proof. split; reflexivity. Qed.

(* ===================================================================== *)
(** * Fence-stripping *)
(* ===================================================================== *)

Lemma no_newline_not_in (s : str) : no_newline s = true -> ~ In NEWLINE s.
Proof.
  unfold no_newline. rewrite forallb_forall. intros H Hin.
  specialize (H _ Hin). now rewrite N.eqb_refl in H.
Qed.

(** The result of fence-stripping is trimmed. *)
Lemma strip_fences_trimmed (t c : str) :
  strip_fences t = Ok c -> strip c = c.
Proof.
  unfold strip_fences. intros H. apply bind_ok in H as [x [_ H]].
  inversion H. apply strip_idempotent.
Qed.

(** A text without fences is only trimmed. *)
Lemma strip_fences_plain (t : str) :
  startswith (strip t) FENCE = false ->
  endswith (strip t) FENCE = false ->
  strip_fences t = Ok (strip t).
Proof.
  intros S E. unfold strip_fences. rewrite S. cbn [bind]. rewrite E.
  now rewrite strip_idempotent.
Qed.

(** One layer of fences is removed, whatever the text inside. *)
Lemma strip_fences_fenced (lang t sep : str) :
  no_newline lang = true ->
  forallb isspace sep = true ->
  strip_fences (fenced lang t sep) = Ok (strip t).
Proof.
  intros L Sp. unfold strip_fences.
  assert (strip (fenced lang t sep) = fenced lang t sep) as ->.
  { apply strip_fix. unfold trimmed, fenced.
    rewrite !rev_app_distr. reflexivity. }
  assert (startswith (fenced lang t sep) FENCE = true) as ->
      by apply startswith_app.
  assert (index (fenced lang t sep) NEWLINE = Some (length (FENCE ++ lang))) as ->.
  { unfold fenced. rewrite app_assoc. apply index_app.
    intros Hin. apply in_app_or in Hin as [Hin|Hin].
    - cbn in Hin. intuition discriminate.
    - now apply no_newline_not_in in Hin. }
  cbn [bind].
  assert (slice_from (length (FENCE ++ lang) + 1) (fenced lang t sep)
          = (t ++ sep) ++ FENCE) as ->.
  { unfold slice_from, fenced.
    rewrite (app_assoc FENCE lang), skipn_app.
    rewrite skipn_all2 by lia.
    replace (length (FENCE ++ lang) + 1 - length (FENCE ++ lang))%nat
      with 1%nat by lia.
    cbn [skipn app]. now rewrite app_assoc. }
  rewrite endswith_app.
  change 3%nat with (length FENCE).
  rewrite slice_drop_last_app. now rewrite strip_spaces_r.
Qed.

(** C7 as stated fails: on a reply fenced twice the first application
    removes the outer fences and the second the inner ones. *)
Lemma fence_stripping_idempotent_counterexample :
  strip_fences reply_fenced_twice = Ok (fenced (lit "json") (lit "[]") [NEWLINE])
  /\ strip_fences_twice reply_fenced_twice = Ok (lit "[]")
  /\ strip_fences_twice reply_fenced_twice <> strip_fences reply_fenced_twice.
Proof. repeat split. vm_compute. discriminate. Qed.

(** C7 (as amended). Fence-stripping removes one layer of fences.
    Applying it to its own result changes nothing when that result neither
    starts nor ends with three backticks, and so when that result is a JSON
    text.  It is exact: for every JSON text, wrapping it in an opening
    fence line (three backticks and any language tag) and a closing fence
    and then stripping yields the same text as stripping it unwrapped, and
    both parse to the value of the text itself; more generally, when the
    unwrapped, unfenced text parses to a value, the wrapped one parses to
    that value. *)
Theorem fence_stripping_one_layer_and_exact :
  (forall t c,
     strip_fences t = Ok c ->
     startswith c FENCE = false -> endswith c FENCE = false ->
     strip_fences c = Ok c)
  /\ (forall t c v,
        strip_fences t = Ok c -> Json.loads c = Ok v ->
        strip_fences_twice t = strip_fences t)
  /\ (forall lang sep t v,
        no_newline lang = true -> forallb isspace sep = true ->
        Json.loads t = Ok v ->
        strip_fences (fenced lang t sep) = strip_fences t
        /\ parse_reply (fenced lang t sep) = Ok v
        /\ parse_reply t = Ok v)
  /\ (forall lang sep t v,
        no_newline lang = true -> forallb isspace sep = true ->
        startswith (strip t) FENCE = false -> endswith (strip t) FENCE = false ->
        parse_reply t = Ok v ->
        parse_reply (fenced lang t sep) = Ok v).
Proof.
  assert (forall t c, strip_fences t = Ok c ->
            startswith c FENCE = false -> endswith c FENCE = false ->
            strip_fences c = Ok c) as once.
  { intros t c H S E. apply strip_fences_trimmed in H.
    rewrite <- H at 2. apply strip_fences_plain; now rewrite H. }
  split; [exact once|]. split; [|split].
  - intros t c v H L. unfold strip_fences_twice. rewrite H. cbn [bind].
    pose proof (strip_fences_trimmed _ _ H) as T.
    destruct (json_text_stripped c v L) as [S E]. rewrite T in S, E.
    now apply (once t).
  - intros lang sep t v Hl Hs L.
    destruct (json_text_stripped t v L) as [S E].
    unfold parse_reply.
    rewrite strip_fences_fenced by assumption.
    rewrite strip_fences_plain by assumption. cbn [bind].
    now rewrite (loads_strip t v L).
  - intros lang sep t v L Sp S E P. unfold parse_reply in *.
    rewrite strip_fences_fenced by assumption.
    now rewrite strip_fences_plain in P.
Qed.

Lemma fence_stripping_one_layer_and_exact_witness :
  strip_fences (fenced (lit "json") reply_bare_array [NEWLINE]) =
    strip_fences reply_bare_array
  /\ parse_reply (fenced (lit "json") reply_bare_array [NEWLINE]) =
       Ok (PList [PDict [(lit "display_text", PStr (lit "No pets."))]])
  /\ parse_reply reply_bare_array =
       Ok (PList [PDict [(lit "display_text", PStr (lit "No pets."))]]).
Proof.
  apply (proj1 (proj2 (proj2 fence_stripping_one_layer_and_exact))
           (lit "json") [NEWLINE] reply_bare_array
           (PList [PDict [(lit "display_text", PStr (lit "No pets."))]]));
    reflexivity.
Defined.

(* ===================================================================== *)
(** * Further properties of the handler *)
(* ===================================================================== *)

(** ** Failures of the external API *)





(** ** The content of the reply *)

(** X3. A message without content makes [content[0]] raise: the handler
    answers with status 500 and [list index out of range].  A message
    whose first block is not a text block makes [.text] raise: status 500
    and the [AttributeError] naming the block's class, whatever blocks
    follow. *)
Theorem reply_without_leading_text_is_an_internal_error
    environ create data t k content
    (Ht : field_text data "policy_text" = Some t)
    (Hk : field_text data "api_key" = Some k)
    (Et : is_empty (strip t) = false)
    (Ek : is_empty (api_key_used environ k) = false)
    (Hreply : create (request_args (api_key_used environ k) (strip t)) =
              Ok content) :
  match content with
  | [] =>
      fst (process environ create data) =
        Json 500 (jsonify_error (lit "list index out of range"))
  | OtherBlock cls :: _ =>
      fst (process environ create data) =
        Json 500 (jsonify_error
                    (lit "'" ++ cls ++ lit "' object has no attribute 'text'"))
  | TextBlock _ :: _ => True
  end.
Proof.
  rewrite (process_accepted environ create data t k Ht Hk Et Ek). cbn [fst].
  unfold try_body. rewrite Hreply. cbn [bind].
  destruct content as [|[text|cls] rest]; [reflexivity | exact I | reflexivity].
Qed.

Lemma reply_without_leading_text_witness :
  fst (process [] tool_use_only (request_body (lit "No pets.") (lit "sk-key"))) =
    Json 500 (jsonify_error
                (lit "'ToolUseBlock' object has no attribute 'text'")).
Proof.
  apply (reply_without_leading_text_is_an_internal_error
           [] tool_use_only (request_body (lit "No pets.") (lit "sk-key"))
           (lit "No pets.") (lit "sk-key")
           [OtherBlock (lit "ToolUseBlock"); TextBlock (lit "[]")]);
    reflexivity.
Defined.

(** ** Requests *)





(** ** The policies of the reply *)




(** ** Fence-stripping, further *)

Lemma no_newline_in (s : str) : no_newline s = false -> In NEWLINE s.
Proof.
  unfold no_newline. induction s as [|c r IH]; cbn [forallb]; [discriminate|].
  destruct (N.eqb_spec c NEWLINE) as [->|_]; cbn [negb andb]; [now left|].
  intros H. right. auto.
Qed.

Lemma index_some (s : str) (c : char) :
  In c s -> exists i, index s c = Some i.
Proof.
  induction s as [|a r IH]; [intros []|]. intros H. cbn [index].
  destruct (N.eqb_spec a c) as [_|Hne]; [now exists O|].
  destruct H as [H|H]; [congruence|].
  destruct (IH H) as [i ->]. now exists (S i).
Qed.

(** X7. Fence-stripping fails in one case only: the trimmed reply starts
    with three backticks and holds no newline.  The exception is then the
    [ValueError] of [str.index]; on every other reply a text is returned. *)
Theorem fence_stripping_fails_only_on_a_lone_fence_line (t : str) :
  match strip_fences t with
  | Raise e =>
      startswith (strip t) FENCE && no_newline (strip t) = true
      /\ e = mk_exn ValueError (lit "substring not found")
  | Ok _ => startswith (strip t) FENCE && no_newline (strip t) = false
  end.
Proof.
  unfold strip_fences.
  destruct (startswith (strip t) FENCE); cbn [andb bind]; [|reflexivity].
  destruct (no_newline (strip t)) eqn:N.
  - rewrite index_none by (now apply no_newline_not_in). now split.
  - destruct (index_some _ _ (no_newline_in _ N)) as [i ->]. reflexivity.
Qed.

Lemma strip_decompose (t : str) :
  exists w1 w2,
    t = w1 ++ strip t ++ w2
    /\ forallb isspace w1 = true /\ forallb isspace w2 = true.
Proof.
  destruct (lstrip_suffix t) as [w1 [E1 A1]].
  destruct (rstrip_prefix (lstrip t)) as [w2 [E2 A2]].
  exists w1, w2. unfold strip. now rewrite <- E2, <- E1.
Qed.

Lemma hd_visible_app (a b : str) :
  hd_visible a = true -> hd_visible (a ++ b) = true.
Proof. destruct a; [discriminate | trivial]. Qed.

(** X8. A closing fence without an opening one is removed: it is cut off
    a text that does not itself start with a backtick, together with the
    whitespace before it. *)
Theorem a_lone_closing_fence_is_removed
    (t sep : str)
    (Hs : forallb isspace sep = true)
    (V : hd_visible (strip t) = true) :
  strip_fences (t ++ sep ++ FENCE) = Ok (strip t).
Proof.
  destruct (strip_decompose t) as [w1 [w2 [E [A1 A2]]]].
  set (u := strip t) in *.
  assert (hd_ok (rev u) = true) as L.
  { pose proof (strip_trimmed t) as T. unfold trimmed in T.
    now apply andb_prop in T as [_ T]. }
  assert (strip (t ++ sep ++ FENCE) = (u ++ w2 ++ sep) ++ FENCE) as C.
  { rewrite E at 1. rewrite <- !app_assoc.
    rewrite strip_spaces_l by assumption.
    apply strip_fix. unfold trimmed.
    rewrite (visible_not_space _ (hd_visible_app u _ V)).
    rewrite !app_assoc, rev_app_distr. reflexivity. }
  unfold strip_fences. rewrite C.
  rewrite visible_no_fence
    by (rewrite <- !app_assoc; now apply hd_visible_app).
  cbn [bind]. rewrite endswith_app.
  change 3%nat with (length FENCE). rewrite slice_drop_last_app.
  rewrite strip_spaces_r
    by (rewrite forallb_app; now rewrite A2, Hs).
  f_equal. unfold u. apply strip_idempotent.
Qed.

(** X9. An opening fence line without a closing fence, as in a reply that
    was cut short, is removed from a text that does not itself end with a
    backtick. *)
Theorem a_lone_opening_fence_is_removed
    (lang t : str)
    (Hl : no_newline lang = true)
    (V : hd_visible (rev (strip t)) = true) :
  strip_fences (FENCE ++ lang ++ [NEWLINE] ++ t) = Ok (strip t).
Proof.
  destruct (strip_decompose t) as [w1 [w2 [E [A1 A2]]]].
  set (u := strip t) in *.
  assert (strip (FENCE ++ lang ++ [NEWLINE] ++ t)
          = FENCE ++ lang ++ [NEWLINE] ++ w1 ++ u) as C.
  { rewrite E at 1.
    replace (FENCE ++ lang ++ [NEWLINE] ++ w1 ++ u ++ w2)
      with ((FENCE ++ lang ++ [NEWLINE] ++ w1 ++ u) ++ w2)
      by (now rewrite <- !app_assoc).
    rewrite strip_spaces_r by assumption.
    apply strip_fix. unfold trimmed.
    replace (FENCE ++ lang ++ [NEWLINE] ++ w1 ++ u)
      with ((FENCE ++ lang ++ [NEWLINE] ++ w1) ++ u)
      by (now rewrite <- !app_assoc).
    rewrite rev_app_distr.
    rewrite (visible_not_space _ (hd_visible_app (rev u) _ V)).
    reflexivity. }
  unfold strip_fences. rewrite C.
  rewrite startswith_app.
  assert (index (FENCE ++ lang ++ [NEWLINE] ++ w1 ++ u) NEWLINE
          = Some (length (FENCE ++ lang))) as ->.
  { rewrite app_assoc. apply index_app.
    intros Hin. apply in_app_or in Hin as [Hin|Hin].
    - cbn in Hin. intuition discriminate.
    - now apply no_newline_not_in in Hin. }
  cbn [bind].
  assert (slice_from (length (FENCE ++ lang) + 1)
            (FENCE ++ lang ++ [NEWLINE] ++ w1 ++ u) = w1 ++ u) as ->.
  { unfold slice_from. rewrite (app_assoc FENCE lang), skipn_app.
    rewrite skipn_all2 by lia.
    replace (length (FENCE ++ lang) + 1 - length (FENCE ++ lang))%nat
      with 1%nat by lia.
    reflexivity. }
  assert (endswith (w1 ++ u) FENCE = false) as ->.
  { unfold endswith. rewrite rev_app_distr.
    apply (visible_no_fence (rev u ++ rev w1)).
    now apply hd_visible_app. }
  rewrite strip_spaces_l by assumption.
  f_equal. unfold u. apply strip_idempotent.
Qed.

Lemma a_lone_closing_fence_witness :
  strip_fences (lit "[1, 2]" ++ [NEWLINE] ++ FENCE) = Ok (strip (lit "[1, 2]")).
Proof.
  apply (a_lone_closing_fence_is_removed (lit "[1, 2]") [NEWLINE]);
    reflexivity.
Defined.

Lemma a_lone_opening_fence_witness :
  strip_fences (FENCE ++ lit "json" ++ [NEWLINE] ++ reply_cut_short)
  = Ok (strip reply_cut_short).
Proof.
  apply (a_lone_opening_fence_is_removed (lit "json") reply_cut_short);
    reflexivity.
Defined.

(** ** Replies that are not just a JSON value *)






(** ** Items that are not objects *)



